(** * engine-mach: a shallow embedding of [script.js]

    The script simulates compressible flow through a duct whose walls are
    two draggable splines.  This development embeds the numerical core of
    the script (wall queries, the velocity update, particle advection and
    the shock bookkeeping of the animation loop) and proves facts about it.

    Number model.  A JavaScript number is read as a real number and the
    arithmetic operators as the exact operations of [R]; rounding error,
    NaN and the infinities are outside the model.  Division in [R] is total
    ([a / 0 = 0]); where a statement is about a division by zero, the
    divisors are logged explicitly (see [calculateVelocity_log]).

    Effects.  Objects mutated in place ([this], the two walls, the
    [shockPoints] map) are passed and returned explicitly.  A [TypeError]
    (reading a property of [undefined]) is the [None] of an option.
    [Math.random()] and [performance.now()] are inputs of the functions
    that call them. *)

From Stdlib Require Import Reals Lra Lia List ZArith Bool Sorted Relations
  Permutation.
Import ListNotations.
Open Scope R_scope.

(** ** Comparisons and numeric helpers *)

Definition Rltb (a b : R) : bool := if Rlt_dec a b then true else false.
Definition Rleb (a b : R) : bool := if Rle_dec a b then true else false.
Definition Rgeb (a b : R) : bool := if Rge_dec a b then true else false.
Definition Reqb (a b : R) : bool := if Req_dec_T a b then true else false.

(** [Math.round]: nearest integer, halves rounded towards plus infinity. *)
Definition Math_round (r : R) : R := IZR (Zfloor (r + 0.5)).

(** [Math.max(...l)] on a non-empty array.  The only call site is guarded
    by a positive event count, so the empty case is never evaluated. *)
Definition Math_max (l : list R) : R :=
  match l with
  | [] => 0
  | a :: rest => fold_left Rmax rest a
  end.

(** [arr.slice(-n)]: the last [n] elements. *)
Definition slice_last {A : Type} (n : nat) (l : list A) : list A :=
  skipn (length l - n) l.

Fixpoint last_error {A : Type} (l : list A) : option A :=
  match l with
  | [] => None
  | [a] => Some a
  | _ :: rest => last_error rest
  end.

Fixpoint set_nth {A : Type} (i : nat) (v : A) (l : list A) : list A :=
  match l, i with
  | [], _ => []
  | _ :: rest, O => v :: rest
  | a :: rest, S j => a :: set_nth j v rest
  end.

Notation "x <- c ;; k" :=
  (match c with Some x => k | None => None end)
  (at level 61, c at next level, right associativity).
Notation "' p <- c ;; k" :=
  (match c with Some p => k | None => None end)
  (at level 61, p pattern, c at next level, right associativity).

(** ** Globals *)

Definition PHYSICAL_WIDTH_METERS : R := 5.
Definition SHOCK_WINDOW : nat := 100.
Definition SHOCK_THRESHOLD : nat := 1.
Definition SHOCK_LIFETIME : R := 300.

(** The mutable globals of the script and what the page supplies.
    [SHOCK_DISTANCE] is a [const] evaluated once when the script loads, as
    [metersToPixels(0.1)] at the canvas width of that moment; it is kept as
    a field because [canvas_width] changes afterwards.  [numeric_spline xs
    ys] stands for [numeric.spline(xs, ys).at] of the numeric.js library
    the page loads. *)
Record Globals := {
  canvas_width : R;
  SHOCK_DISTANCE : R;
  soundSpeed : R;
  initialVelocity : R;
  timeScale : R;
  numeric_spline : list R -> list R -> R -> R
}.

Definition metersToPixels (g : Globals) (meters : R) : R :=
  (meters / PHYSICAL_WIDTH_METERS) * canvas_width g.

Definition pixelsToMeters (g : Globals) (pixels : R) : R :=
  (pixels / canvas_width g) * PHYSICAL_WIDTH_METERS.

(** ** class Spline *)

Module Spline.

Record Point := { x : R; y : R }.

Record t := {
  isTop : bool;
  points : list Point;
  velocityMeasurements : list (list R);
  splineCoeffs : option (R -> R)
}.

(** [points.sort((a, b) => a.x - b.x)], a stable sort. *)
Fixpoint insert (p : Point) (l : list Point) : list Point :=
  match l with
  | [] => [p]
  | q :: rest => if Rleb (x p) (x q) then p :: q :: rest
                 else q :: insert p rest
  end.

Fixpoint sort (l : list Point) : list Point :=
  match l with
  | [] => []
  | p :: rest => insert p (sort rest)
  end.

Definition initializeSpline (g : Globals) (s : t) : t :=
  let pts := sort (points s) in
  let xs := map x pts in
  let ys := map y pts in
  {| isTop := isTop s;
     points := pts;
     velocityMeasurements := velocityMeasurements s;
     splineCoeffs := Some (numeric_spline g xs ys) |}.

Definition getAverageVelocity (s : t) (pointIndex : nat) : option R :=
  measurements <- nth_error (velocityMeasurements s) pointIndex ;;
  if Nat.eqb (length measurements) 0 then Some 0
  else
    let sum := fold_left Rplus measurements 0 in
    Some (sum / INR (length measurements)).

(** The loop of [recordVelocity] over [points[i..]], carrying
    [closestIndex] and [closestDist]. *)
Fixpoint closest (px : R) (pts : list Point) (i closestIndex : nat)
         (closestDist : R) : nat * R :=
  match pts with
  | [] => (closestIndex, closestDist)
  | p :: rest =>
      let dist := Rabs (x p - px) in
      if Rltb dist closestDist then closest px rest (S i) i dist
      else closest px rest (S i) closestIndex closestDist
  end.

Definition recordVelocity (s : t) (px velocity : R) : option t :=
  match points s with
  | [] => None
  | p0 :: rest =>
      let '(closestIndex, closestDist) :=
        closest px rest 1 0 (Rabs (x p0 - px)) in
      if Rltb closestDist 50 then
        measurements <- nth_error (velocityMeasurements s) closestIndex ;;
        let pushed := measurements ++ [velocity] in
        let kept := if Nat.ltb 50 (length pushed) then tl pushed
                    else pushed in
        Some {| isTop := isTop s;
                points := points s;
                velocityMeasurements :=
                  set_nth closestIndex kept (velocityMeasurements s);
                splineCoeffs := splineCoeffs s |}
      else Some s
  end.

(** [getYAtX] may initialise the spline, so the wall is returned too. *)
Definition getYAtX (g : Globals) (s : t) (px : R) : option (R * t) :=
  let s := match splineCoeffs s with
           | Some _ => s
           | None => initializeSpline g s
           end in
  match points s, last_error (points s), splineCoeffs s with
  | p0 :: _, Some pn, Some coeffs =>
      if Rleb px (x p0) then Some (y p0, s)
      else if Rgeb px (x pn) then Some (y pn, s)
      else Some (coeffs px, s)
  | _, _, _ => None
  end.

(** [initializePoints] lays out five control points across the canvas and
    empties the buffers; [canvas_height] is [canvas.height]. *)
Definition initializePoints (g : Globals) (canvas_height : R) (s : t) : t :=
  let numPoints := 5%nat in
  let baseY := if isTop s then canvas_height * 0.2
               else canvas_height * 0.8 in
  let pts :=
    map (fun i =>
           {| x := (canvas_width g / (INR numPoints - 1)) * INR i;
              y := baseY + sin (INR i * PI / 2) * 20 |})
        (seq 0 numPoints) in
  initializeSpline g
    {| isTop := isTop s;
       points := pts;
       velocityMeasurements := map (fun _ => []) pts;
       splineCoeffs := splineCoeffs s |}.

(** [new Spline(isTop)]: the last statement of the constructor clears the
    interpolant that [initializePoints] has just computed. *)
Definition constructor (g : Globals) (canvas_height : R) (top : bool) : t :=
  let s := initializePoints g canvas_height
             {| isTop := top; points := []; velocityMeasurements := [];
                splineCoeffs := None |} in
  {| isTop := isTop s;
     points := points s;
     velocityMeasurements := map (fun _ => []) (points s);
     splineCoeffs := None |}.

(** [getSplinePoints]: 200 samples of the interpolant from the first to
    the last control point, without the clamping of [getYAtX]. *)
Definition getSplinePoints (g : Globals) (s : t) : option (list Point * t) :=
  let s := match splineCoeffs s with
           | Some _ => s
           | None => initializeSpline g s
           end in
  match points s, last_error (points s), splineCoeffs s with
  | p0 :: _, Some pn, Some coeffs =>
      let numPoints := 200%nat in
      let xStart := x p0 in
      let xEnd := x pn in
      let dx := (xEnd - xStart) / (INR numPoints - 1) in
      Some (map (fun i => let px := xStart + INR i * dx in
                          {| x := px; y := coeffs px |})
                (seq 0 numPoints),
            s)
  | _, _, _ => None
  end.

End Spline.

(** ** Shock bookkeeping *)

Record ShockEvent := { type : Z; timestamp : R }.

(** [shockPoints], a [Map] from rounded positions to event arrays, in
    insertion order. *)
Definition ShockMap := list (R * list ShockEvent).

Fixpoint Map_get (k : R) (m : ShockMap) : option (list ShockEvent) :=
  match m with
  | [] => None
  | (k', v) :: rest => if Reqb k' k then Some v else Map_get k rest
  end.

Fixpoint Map_set (k : R) (v : list ShockEvent) (m : ShockMap) : ShockMap :=
  match m with
  | [] => [(k, v)]
  | (k', v') :: rest => if Reqb k' k then (k', v) :: rest
                        else (k', v') :: Map_set k v rest
  end.

Record World := {
  globals : Globals;
  topWall : option Spline.t;
  bottomWall : option Spline.t;
  shockPoints : ShockMap
}.

Definition with_bottomWall (w : World) (s : Spline.t) : World :=
  {| globals := globals w; topWall := topWall w;
     bottomWall := Some s; shockPoints := shockPoints w |}.

(** ** calculateVelocity *)

Definition calculateVelocity (w : World) (x1 x2 y1 y2 V1 : R)
  : option (R * World) :=
  let g := globals w in
  let y2_meters := pixelsToMeters g y2 in
  wall <- bottomWall w ;;
  '(y2_next, wall') <- Spline.getYAtX g wall x2 ;;
  let w' := with_bottomWall w wall' in
  let y2_next_meters := pixelsToMeters g y2_next in
  let A1 := y2_meters * y2_meters * PI in
  let A2 := y2_next_meters * y2_next_meters * PI in
  let dA := A2 - A1 in
  let dA_A := dA / A1 in
  let M := V1 / soundSpeed g in
  let one_minus_M1 := 1 - M * M in
  if Rltb (Rabs one_minus_M1) 0.01 then Some (initialVelocity g, w')
  else
    let dV := - dA_A * V1 / one_minus_M1 in
    Some (V1 + dV * 0.05, w').

(** The same function with every division it evaluates logged: the third
    component lists the divisors in evaluation order. *)
Definition pixelsToMeters_log (g : Globals) (pixels : R) : R * list R :=
  ((pixels / canvas_width g) * PHYSICAL_WIDTH_METERS, [canvas_width g]).

Definition calculateVelocity_log (w : World) (x1 x2 y1 y2 V1 : R)
  : option (R * World * list R) :=
  let g := globals w in
  let '(y2_meters, d1) := pixelsToMeters_log g y2 in
  wall <- bottomWall w ;;
  '(y2_next, wall') <- Spline.getYAtX g wall x2 ;;
  let w' := with_bottomWall w wall' in
  let '(y2_next_meters, d2) := pixelsToMeters_log g y2_next in
  let A1 := y2_meters * y2_meters * PI in
  let A2 := y2_next_meters * y2_next_meters * PI in
  let dA := A2 - A1 in
  let dA_A := dA / A1 in
  let M := V1 / soundSpeed g in
  let one_minus_M1 := 1 - M * M in
  let d3 := d1 ++ d2 ++ [A1; soundSpeed g] in
  if Rltb (Rabs one_minus_M1) 0.01 then Some (initialVelocity g, w', d3)
  else
    let dV := - dA_A * V1 / one_minus_M1 in
    Some (V1 + dV * 0.05, w', d3 ++ [one_minus_M1]).

(** ** Recording a Mach transition (the body of the [if] in [update]) *)

Definition roundedX (g : Globals) (px : R) : R :=
  Math_round (px / SHOCK_DISTANCE g) * SHOCK_DISTANCE g.

Definition recordTransition (g : Globals) (m : ShockMap)
           (px newMach t_push now : R) : ShockMap :=
  let key := roundedX g px in
  let m1 := match Map_get key m with
            | Some _ => m
            | None => Map_set key [] m
            end in
  let transitions :=
    match Map_get key m1 with Some l => l | None => [] end
    ++ [ {| type := if Rgeb newMach 1 then 1%Z else (-1)%Z;
            timestamp := t_push |} ] in
  let updatedTransitions :=
    slice_last SHOCK_WINDOW
      (filter (fun t => Rltb (now - timestamp t) SHOCK_LIFETIME)
              transitions) in
  Map_set key updatedTransitions m1.

(** ** class Particle *)

Record Color := rgba { red : Z; green : Z; blue : Z; alpha : R }.

Module Particle.

(** [y] is unset until the first [update]; [normalizedY] is tested with
    [hasOwnProperty], so both are optional. *)
Record t := {
  size : R;
  x : R;
  y : option R;
  normalizedY : option R;
  speedX : R;
  opacity : R;
  color : Color
}.

Definition updateColor (g : Globals) (p : t) : t :=
  let localMach := speedX p / soundSpeed g in
  {| size := size p; x := x p; y := y p; normalizedY := normalizedY p;
     speedX := speedX p; opacity := opacity p;
     color := if Rltb 1 localMach then rgba 255 50 50 (opacity p)
              else rgba 255 255 255 (opacity p) |}.

Definition setupVelocity (g : Globals) (p : t) (rnd_opacity : R) : t :=
  updateColor g
    {| size := size p; x := x p; y := y p; normalizedY := normalizedY p;
       speedX := initialVelocity g;
       opacity := rnd_opacity * 0.5 + 0.5;
       color := color p |}.

Definition initialSpawn (g : Globals) (p : t)
           (rnd_size rnd_x rnd_y rnd_opacity : R) : t :=
  setupVelocity g
    {| size := rnd_size * 2 + 1;
       x := rnd_x * canvas_width g;
       y := y p;
       normalizedY := Some rnd_y;
       speedX := speedX p; opacity := opacity p; color := color p |}
    rnd_opacity.

Definition reset (g : Globals) (p : t) (rnd_size rnd_y rnd_opacity : R)
  : t :=
  setupVelocity g
    {| size := rnd_size * 2 + 1;
       x := 0;
       y := y p;
       normalizedY := match normalizedY p with
                      | Some n => Some n
                      | None => Some rnd_y
                      end;
       speedX := speedX p; opacity := opacity p; color := color p |}
    rnd_opacity.

(** The object [new] hands to the constructor has no property yet;
    [reset] assigns every field but [y]. *)
Definition blank : t :=
  {| size := 0; x := 0; y := None; normalizedY := None;
     speedX := 0; opacity := 0; color := rgba 0 0 0 0 |}.

Definition constructor (g : Globals) (rnd_size rnd_y rnd_opacity : R) : t :=
  reset g blank rnd_size rnd_y rnd_opacity.

Definition update (w : World) (p : t) (t_push now : R)
  : option (t * World) :=
  let g := globals w in
  match topWall w, bottomWall w with
  | Some top, Some bottom =>
      let lookAheadMeters := 0.1 in
      let lookAheadPixels := metersToPixels g lookAheadMeters in
      '(topY, top1) <- Spline.getYAtX g top (x p) ;;
      '(bottomY, bottom1) <- Spline.getYAtX g bottom (x p) ;;
      let w1 := {| globals := g; topWall := Some top1;
                   bottomWall := Some bottom1;
                   shockPoints := shockPoints w |} in
      let y' := match normalizedY p with
                | Some n => Some (topY + (n * (bottomY - topY)))
                | None => None
                end in
      let prevMach := speedX p / soundSpeed g in
      '(speedX', w2) <-
        calculateVelocity w1 (x p) (x p + lookAheadPixels)
                          topY bottomY (speedX p) ;;
      let newMach := speedX' / soundSpeed g in
      let shocks :=
        if (Rltb prevMach 1 && Rgeb newMach 1)
           || (Rgeb prevMach 1 && Rltb newMach 1)
        then recordTransition g (shockPoints w2) (x p) newMach t_push now
        else shockPoints w2 in
      let dt := (1 / 60) * timeScale g in
      let dxMeters := speedX' * dt in
      let dxPixels := metersToPixels g dxMeters in
      top2 <- topWall w2 ;;
      bottom2 <- bottomWall w2 ;;
      top3 <- Spline.recordVelocity top2 (x p) speedX' ;;
      bottom3 <- Spline.recordVelocity bottom2 (x p) speedX' ;;
      let p1 := updateColor g
                  {| size := size p; x := x p; y := y';
                     normalizedY := normalizedY p; speedX := speedX';
                     opacity := opacity p; color := color p |} in
      Some ({| size := size p1; x := x p1 + dxPixels; y := y p1;
               normalizedY := normalizedY p1; speedX := speedX p1;
               opacity := opacity p1; color := color p1 |},
            {| globals := g; topWall := Some top3;
               bottomWall := Some bottom3; shockPoints := shocks |})
  | _, _ =>
      let dt := (1 / 60) * timeScale g in
      let dxMeters := speedX p * dt in
      let dxPixels := metersToPixels g dxMeters in
      Some ({| size := size p; x := x p + dxPixels; y := y p;
               normalizedY := normalizedY p; speedX := speedX p;
               opacity := opacity p; color := color p |}, w)
  end.

End Particle.

(** ** The shock part of [animate] *)

(** The clean-up loop deletes a bucket that is empty or whose last event
    is [SHOCK_LIFETIME] old. *)
Definition expired (now : R) (transitions : list ShockEvent) : bool :=
  match last_error transitions with
  | None => true
  | Some e => Rgeb (now - timestamp e) SHOCK_LIFETIME
  end.

Definition pruneShocks (now : R) (m : ShockMap) : ShockMap :=
  filter (fun kv => negb (expired now (snd kv))) m.

Definition superCount (transitions : list ShockEvent) : nat :=
  length (filter (fun t => Z.eqb (type t) 1) transitions).

Definition subCount (transitions : list ShockEvent) : nat :=
  length (filter (fun t => Z.eqb (type t) (-1)) transitions).

Definition drawn (transitions : list ShockEvent) : bool :=
  Nat.leb SHOCK_THRESHOLD (superCount transitions)
  || Nat.leb SHOCK_THRESHOLD (subCount transitions).

Definition shockOpacity (now : R) (transitions : list ShockEvent) : R :=
  let latestTime := Math_max (map timestamp transitions) in
  let age := now - latestTime in
  Rmax 0 (1 - (age / SHOCK_LIFETIME)).

Definition shockStyle (now : R) (transitions : list ShockEvent) : Color :=
  let opacity := shockOpacity now transitions in
  if Nat.leb SHOCK_THRESHOLD (superCount transitions)
  then rgba 255 50 50 opacity
  else rgba 50 50 255 opacity.

(** One stroked segment: [moveTo(x, topY); lineTo(x, bottomY)]. *)
Record Stroke := {
  stroke_x : R;
  stroke_topY : R;
  stroke_bottomY : R;
  strokeStyle : Color
}.

Fixpoint drawShocks (g : Globals) (now : R) (top bottom : Spline.t)
         (m : ShockMap) : option (list Stroke * Spline.t * Spline.t) :=
  match m with
  | [] => Some ([], top, bottom)
  | (k, transitions) :: rest =>
      if drawn transitions then
        '(topY, top1) <- Spline.getYAtX g top k ;;
        '(bottomY, bottom1) <- Spline.getYAtX g bottom k ;;
        '(strokes, top2, bottom2) <- drawShocks g now top1 bottom1 rest ;;
        Some ({| stroke_x := k; stroke_topY := topY;
                 stroke_bottomY := bottomY;
                 strokeStyle := shockStyle now transitions |} :: strokes,
              top2, bottom2)
      else drawShocks g now top bottom rest
  end.

(** Lines 450-486 of [animate]:prune, then stroke the surviving buckets.
    Both walls exist by then ([topWall.draw()] ran just before). *)
Definition animateShocks (w : World) (now : R)
  : option (list Stroke * World) :=
  top <- topWall w ;;
  bottom <- bottomWall w ;;
  let pruned := pruneShocks now (shockPoints w) in
  '(strokes, top', bottom') <- drawShocks (globals w) now top bottom pruned ;;
  Some (strokes,
        {| globals := globals w; topWall := Some top';
           bottomWall := Some bottom'; shockPoints := pruned |}).

(** ** Mouse interaction *)

(** The two fields of a [Spline] that only the mouse handlers use. *)
Record Drag := { dragging : bool; dragPointIndex : Z }.

(** The [forEach] of [handleMouseDown] over [points[i..]]. *)
Fixpoint handleMouseDown_loop (pts : list Spline.Point) (i : nat)
         (mouseX mouseY : R) (d : Drag) : Drag :=
  match pts with
  | [] => d
  | point :: rest =>
      let dx := Spline.x point - mouseX in
      let dy := Spline.y point - mouseY in
      handleMouseDown_loop rest (S i) mouseX mouseY
        (if Rltb (dx * dx + dy * dy) 100
         then {| dragging := true; dragPointIndex := Z.of_nat i |}
         else d)
  end.

(** [mouseX], [mouseY] are the event coordinates relative to the canvas. *)
Definition handleMouseDown (s : Spline.t) (d : Drag) (mouseX mouseY : R)
  : Drag :=
  handleMouseDown_loop (Spline.points s) 0 mouseX mouseY d.

Definition handleMouseUp (d : Drag) : Drag :=
  {| dragging := false; dragPointIndex := (-1)%Z |}.

(** The two global variables holding a wall. *)
Inductive WallSlot := Top | Bottom.

Definition getWall (w : World) (slot : WallSlot) : option Spline.t :=
  match slot with
  | Top => topWall w
  | Bottom => bottomWall w
  end.

Definition setWall (w : World) (slot : WallSlot) (s : Spline.t) : World :=
  match slot with
  | Top => {| globals := globals w; topWall := Some s;
              bottomWall := bottomWall w; shockPoints := shockPoints w |}
  | Bottom => {| globals := globals w; topWall := topWall w;
                 bottomWall := Some s; shockPoints := shockPoints w |}
  end.

(** [s.points[i].x = px; s.points[i].y = py]. *)
Definition setPoint (s : Spline.t) (i : Z) (px py : R) : option Spline.t :=
  if (i <? 0)%Z then None
  else
    _ <- nth_error (Spline.points s) (Z.to_nat i) ;;
    Some {| Spline.isTop := Spline.isTop s;
            Spline.points :=
              set_nth (Z.to_nat i) {| Spline.x := px; Spline.y := py |}
                      (Spline.points s);
            Spline.velocityMeasurements := Spline.velocityMeasurements s;
            Spline.splineCoeffs := Spline.splineCoeffs s |}.

(** [handleMouseMove] called on the wall held by [this], whose drag state
    is [d].  The walls are read from and written to the two globals, so
    that a wall mirrored onto itself is handled as the script does. *)
Definition handleMouseMove (canvas_height : R) (w : World) (this : WallSlot)
           (d : Drag) (mouseX mouseY : R) : option World :=
  self <- getWall w this ;;
  if negb (dragging d) then Some w
  else
    self1 <- setPoint self (dragPointIndex d) mouseX mouseY ;;
    let w1 := setWall w this self1 in
    let mirrorSlot := if Spline.isTop self1 then Bottom else Top in
    let mirrorY := canvas_height - mouseY in
    mirroredWall <- getWall w1 mirrorSlot ;;
    mirrored1 <- setPoint mirroredWall (dragPointIndex d) mouseX mirrorY ;;
    let w2 := setWall w1 mirrorSlot mirrored1 in
    self2 <- getWall w2 this ;;
    let w3 := setWall w2 this (Spline.initializeSpline (globals w) self2) in
    mirrored2 <- getWall w3 mirrorSlot ;;
    Some (setWall w3 mirrorSlot
                  (Spline.initializeSpline (globals w) mirrored2)).

(** ** resizeCanvas *)

(** [innerWidth], [innerHeight] are the window's; the new canvas height is
    the second component of the result. *)
Definition resizeCanvas (w : World) (innerWidth innerHeight : R)
  : option (World * R) :=
  let g := {| canvas_width := innerWidth;
              SHOCK_DISTANCE := SHOCK_DISTANCE (globals w);
              soundSpeed := soundSpeed (globals w);
              initialVelocity := initialVelocity (globals w);
              timeScale := timeScale (globals w);
              numeric_spline := numeric_spline (globals w) |} in
  match topWall w with
  | Some top =>
      bottom <- bottomWall w ;;
      Some ({| globals := g;
               topWall := Some (Spline.initializePoints g innerHeight top);
               bottomWall :=
                 Some (Spline.initializePoints g innerHeight bottom);
               shockPoints := shockPoints w |}, innerHeight)
  | None =>
      Some ({| globals := g; topWall := None; bottomWall := bottomWall w;
               shockPoints := shockPoints w |}, innerHeight)
  end.

(** ** The particle part of [animate] *)

Definition SPAWN_INTERVAL : R := 0.01.

(** Lines 432-441: at most one particle is spawned per frame.  The five
    random numbers are those drawn by the constructor (size, normalizedY,
    opacity) and by the second [reset] (size, opacity). *)
Definition spawn (g : Globals) (particles : list Particle.t)
           (lastSpawnTime timestamp : R)
           (rnd_size1 rnd_y rnd_opacity1 rnd_size2 rnd_opacity2 : R)
  : list Particle.t * R :=
  let spawnInterval := SPAWN_INTERVAL / timeScale g in
  if Rltb spawnInterval (timestamp - lastSpawnTime) then
    let p := Particle.constructor g rnd_size1 rnd_y rnd_opacity1 in
    let p := Particle.reset g p rnd_size2 rnd_y rnd_opacity2 in
    (particles ++ [p], timestamp)
  else (particles, lastSpawnTime).

(** Lines 489-495: every particle is ticked, then kept if it is still on
    the canvas and fast enough.  [clock i] are the two clock readings
    available to the tick of the particle at index [i]. *)
Fixpoint updateParticles (w : World) (particles : list Particle.t)
         (clock : nat -> R * R) (i : nat)
  : option (list Particle.t * World) :=
  match particles with
  | [] => Some ([], w)
  | particle :: rest =>
      '(particle', w1) <-
        Particle.update w particle (fst (clock i)) (snd (clock i)) ;;
      let keep := Rleb (Particle.x particle') (canvas_width (globals w1))
                  && Rgeb (Rabs (Particle.speedX particle')) 0.001 in
      '(kept, w2) <- updateParticles w1 rest clock (S i) ;;
      Some (if keep then particle' :: kept else kept, w2)
  end.

(** * Vocabulary of the statements, and test data *)

(** The wall [getYAtX] leaves behind: initialised on first use. *)
Definition ready (g : Globals) (s : Spline.t) : Spline.t :=
  match Spline.splineCoeffs s with
  | Some _ => s
  | None => Spline.initializeSpline g s
  end.

(** What the constructor and [initializePoints] establish: some control
    point, and one measurement buffer per control point. *)
Definition wf_wall (s : Spline.t) : Prop :=
  Spline.points s <> [] /\
  length (Spline.velocityMeasurements s) = length (Spline.points s).

(** Cross-section area of a disc whose radius is the wall height [h]
    (pixels, converted to metres as the code does). *)
Definition area (g : Globals) (h : R) : R :=
  PI * (pixelsToMeters g h * pixelsToMeters g h).

(** A small duct used to run the definitions: canvas 1000 px wide, so that
    10 cm are 20 px. *)
Definition test_globals : Globals :=
  {| canvas_width := 1000; SHOCK_DISTANCE := 20; soundSpeed := 343;
     initialVelocity := 100; timeScale := 0.01;
     numeric_spline := fun _ _ _ => 0 |}.

(** A wall with two knots at height [h0] whose interpolant is the constant
    [h1] between them. *)
Definition test_wall (top : bool) (h0 h1 : R) : Spline.t :=
  {| Spline.isTop := top;
     Spline.points := [ {| Spline.x := 0; Spline.y := h0 |};
                        {| Spline.x := 1000; Spline.y := h0 |} ];
     Spline.velocityMeasurements := [ []; [] ];
     Spline.splineCoeffs := Some (fun _ => h1) |}.

Definition test_world (g : Globals) (top bottom : Spline.t) (m : ShockMap)
  : World :=
  {| globals := g; topWall := Some top; bottomWall := Some bottom;
     shockPoints := m |}.

(** The control point [recordVelocity] selects for position [px]. *)
Definition closestPoint (s : Spline.t) (px : R) : option (nat * R) :=
  match Spline.points s with
  | [] => None
  | p0 :: rest => Some (Spline.closest px rest 1 0 (Rabs (Spline.x p0 - px)))
  end.

(** The buffer after one push: the oldest entry leaves once there are
    more than 50. *)
Definition pushed (buf : list R) (velocity : R) : list R :=
  if Nat.ltb 50 (length (buf ++ [velocity])) then tl (buf ++ [velocity])
  else buf ++ [velocity].

(** Control points in ascending order of their downstream coordinate, as
    [initializeSpline] leaves them. *)
Definition ascending (l : list Spline.Point) : Prop :=
  Sorted (fun a b => Spline.x a <= Spline.x b) l.

(** Recording a list of (position, velocity) samples, oldest first. *)
Fixpoint recordAll (s : Spline.t) (samples : list (R * R))
  : option Spline.t :=
  match samples with
  | [] => Some s
  | (px, velocity) :: rest =>
      s' <- Spline.recordVelocity s px velocity ;;
      recordAll s' rest
  end.

(** 51 samples with velocities 1, 2, ..., 51 recorded at the entry. *)
Definition test_samples : list (R * R) :=
  map (fun k => (0, INR k)) (seq 1 51).

(** What can happen to an existing particle: a [reset] or a tick, in any
    state of the globals, walls and shock map. *)
Inductive particle_step (p p' : Particle.t) : Prop :=
| step_reset (g : Globals) (rnd_size rnd_y rnd_opacity : R) :
    p' = Particle.reset g p rnd_size rnd_y rnd_opacity ->
    particle_step p p'
| step_update (w w' : World) (t_push now : R) :
    Particle.update w p t_push now = Some (p', w') ->
    particle_step p p'.

(** The events of a bucket, none when the key is absent. *)
Definition bucket (m : ShockMap) (k : R) : list ShockEvent :=
  match Map_get k m with
  | Some l => l
  | None => []
  end.

Inductive Direction := SupersonicEntry | SubsonicEntry.

(** Red strokes mark supersonic entry, blue ones subsonic entry. *)
Definition category (c : Color) : option Direction :=
  if (Z.eqb (red c) 255 && Z.eqb (green c) 50 && Z.eqb (blue c) 50)%bool
  then Some SupersonicEntry
  else if (Z.eqb (red c) 50 && Z.eqb (green c) 50 && Z.eqb (blue c) 255)%bool
       then Some SubsonicEntry
       else None.

(** The direction with the larger count, ties to supersonic entry. *)
Definition dominant (transitions : list ShockEvent) : Direction :=
  if Nat.leb (subCount transitions) (superCount transitions)
  then SupersonicEntry else SubsonicEntry.

(** A bucket with two subsonic-entry events and a later supersonic-entry
    one. *)
Definition mixed_bucket : list ShockEvent :=
  [ {| type := (-1)%Z; timestamp := 0 |};
    {| type := (-1)%Z; timestamp := 1 |};
    {| type := 1%Z; timestamp := 2 |} ].

Definition stale_event : ShockEvent := {| type := 1%Z; timestamp := 0 |}.
Definition fresh_event : ShockEvent := {| type := (-1)%Z; timestamp := 200 |}.

(** Every measurement buffer of a wall holds at most 50 samples. *)
Definition buffers_bounded (s : Spline.t) : Prop :=
  Forall (fun buf => (length buf <= 50)%nat) (Spline.velocityMeasurements s).

(** Every event of the map has one of the two types [update] pushes. *)
Definition typed (m : ShockMap) : Prop :=
  Forall (fun kv => Forall (fun e => type e = 1%Z \/ type e = (-1)%Z) (snd kv))
         m.

(** The last event of a bucket exists and is younger than
    [SHOCK_LIFETIME]. *)
Definition freshBucket (now : R) (transitions : list ShockEvent) : bool :=
  match last_error transitions with
  | Some e => Rltb (now - timestamp e) SHOCK_LIFETIME
  | None => false
  end.

(** Events in the order of their time stamps. *)
Definition chronological (transitions : list ShockEvent) : Prop :=
  StronglySorted (fun a b => timestamp a <= timestamp b) transitions.

(** A world the ticks and the shock pass can run in: both walls exist, have
    a control point and one buffer of at most 50 samples per control
    point; the shock map has no duplicate key, events of type 1 or -1 only,
    and at most [SHOCK_WINDOW] events per bucket. *)
Definition world_inv (w : World) : Prop :=
  exists top bottom,
    topWall w = Some top /\ bottomWall w = Some bottom
    /\ wf_wall top /\ wf_wall bottom
    /\ buffers_bounded top /\ buffers_bounded bottom
    /\ typed (shockPoints w)
    /\ NoDup (map fst (shockPoints w))
    /\ Forall (fun kv => (length (snd kv) <= SHOCK_WINDOW)%nat)
              (shockPoints w).

(** The velocity [calculateVelocity] computes from the upstream height
    [hU] and the look-ahead height [hD] of the bottom wall. *)
Definition nextVelocity (g : Globals) (hU hD V1 : R) : R :=
  let M := V1 / soundSpeed g in
  if Rltb (Rabs (1 - M * M)) 0.01 then initialVelocity g
  else V1 + 0.05 * (- ((area g hD - area g hU) / area g hU) * V1
                    / (1 - M * M)).

(** Whether the Mach number crosses 1 between two velocities. *)
Definition crossesMach1 (g : Globals) (V1 V2 : R) : bool :=
  let prevMach := V1 / soundSpeed g in
  let newMach := V2 / soundSpeed g in
  (Rltb prevMach 1 && Rgeb newMach 1) || (Rgeb prevMach 1 && Rltb newMach 1).

(** The control points [initializePoints] lays out on a canvas of width
    [cw] around the base height [b]. *)
Definition defaultLayout (cw b : R) : list Spline.Point :=
  [ {| Spline.x := 0; Spline.y := b |};
    {| Spline.x := cw / 4; Spline.y := b + 20 |};
    {| Spline.x := cw / 2; Spline.y := b |};
    {| Spline.x := 3 * cw / 4; Spline.y := b - 20 |};
    {| Spline.x := cw; Spline.y := b |} ].

(** The mouse is within the grab radius of a control point. *)
Definition grabbed (mouseX mouseY : R) (p : Spline.Point) : Prop :=
  (Spline.x p - mouseX) * (Spline.x p - mouseX)
  + (Spline.y p - mouseY) * (Spline.y p - mouseY) < 100.

Definition otherSlot (slot : WallSlot) : WallSlot :=
  match slot with
  | Top => Bottom
  | Bottom => Top
  end.

(** Ticking every particle of a list in turn, each in the world the
    previous ticks left, with the clock readings of its index. *)
Fixpoint tickAll (w : World) (particles : list Particle.t)
         (clock : nat -> R * R) (i : nat)
  : option (list Particle.t * World) :=
  match particles with
  | [] => Some ([], w)
  | particle :: rest =>
      '(particle', w1) <-
        Particle.update w particle (fst (clock i)) (snd (clock i)) ;;
      '(ticked, w2) <- tickAll w1 rest clock (S i) ;;
      Some (particle' :: ticked, w2)
  end.

(** * Properties *)

(** ** Comparisons *)

Lemma Rltb_iff (a b : R) : Rltb a b = true <-> a < b.
Proof. unfold Rltb; destruct (Rlt_dec a b); split; intros; auto; discriminate. Qed.

Lemma Rleb_iff (a b : R) : Rleb a b = true <-> a <= b.
Proof. unfold Rleb; destruct (Rle_dec a b); split; intros; auto; discriminate. Qed.

Lemma Rgeb_iff (a b : R) : Rgeb a b = true <-> a >= b.
Proof. unfold Rgeb; destruct (Rge_dec a b); split; intros; auto; discriminate. Qed.

Lemma Reqb_iff (a b : R) : Reqb a b = true <-> a = b.
Proof. unfold Reqb; destruct (Req_dec_T a b); split; intros; auto; discriminate. Qed.

Lemma Rltb_true (a b : R) : a < b -> Rltb a b = true.
Proof. apply Rltb_iff. Qed.

Lemma Rltb_false (a b : R) : ~ a < b -> Rltb a b = false.
Proof.
  intros H; destruct (Rltb a b) eqn:E; auto.
  apply Rltb_iff in E; contradiction.
Qed.

Lemma Rleb_true (a b : R) : a <= b -> Rleb a b = true.
Proof. apply Rleb_iff. Qed.

Lemma Rleb_false (a b : R) : ~ a <= b -> Rleb a b = false.
Proof.
  intros H; destruct (Rleb a b) eqn:E; auto.
  apply Rleb_iff in E; contradiction.
Qed.

Lemma Rgeb_true (a b : R) : a >= b -> Rgeb a b = true.
Proof. apply Rgeb_iff. Qed.

Lemma Rgeb_false (a b : R) : ~ a >= b -> Rgeb a b = false.
Proof.
  intros H; destruct (Rgeb a b) eqn:E; auto.
  apply Rgeb_iff in E; contradiction.
Qed.

Lemma Reqb_refl (a : R) : Reqb a a = true.
Proof. now apply Reqb_iff. Qed.

Lemma Reqb_false (a b : R) : a <> b -> Reqb a b = false.
Proof.
  intros H; destruct (Reqb a b) eqn:E; auto.
  apply Reqb_iff in E; contradiction.
Qed.

(** Decide the comparisons left in a goal on concrete numbers. *)
Ltac rcompare :=
  unfold Rltb, Rleb, Rgeb, Reqb, Rabs, Rmax;
  repeat match goal with
         | |- context [Rlt_dec ?a ?b] => destruct (Rlt_dec a b); try lra
         | |- context [Rle_dec ?a ?b] => destruct (Rle_dec a b); try lra
         | |- context [Rge_dec ?a ?b] => destruct (Rge_dec a b); try lra
         | |- context [Req_dec_T ?a ?b] => destruct (Req_dec_T a b); try lra
         | |- context [Rcase_abs ?a] => destruct (Rcase_abs a); try lra
         end.

(** ** Walls *)

Lemma insert_length p l : length (Spline.insert p l) = S (length l).
Proof.
  induction l as [|q l IH]; simpl; auto.
  destruct (Rleb _ _); simpl; auto.
Qed.

Lemma sort_length l : length (Spline.sort l) = length l.
Proof.
  induction l as [|p l IH]; simpl; auto.
  now rewrite insert_length, IH.
Qed.

Lemma ready_length g s :
  length (Spline.points (ready g s)) = length (Spline.points s).
Proof.
  unfold ready; destruct (Spline.splineCoeffs s); simpl; auto.
  apply sort_length.
Qed.

Lemma ready_measurements g s :
  Spline.velocityMeasurements (ready g s) = Spline.velocityMeasurements s.
Proof. unfold ready; destruct (Spline.splineCoeffs s); reflexivity. Qed.

Lemma ready_coeffs g s : Spline.splineCoeffs (ready g s) <> None.
Proof.
  unfold ready; destruct (Spline.splineCoeffs s) eqn:E; simpl; congruence.
Qed.

Lemma ready_ready g s : ready g (ready g s) = ready g s.
Proof.
  unfold ready at 1.
  destruct (Spline.splineCoeffs (ready g s)) eqn:E; auto.
  now apply ready_coeffs in E.
Qed.

Lemma ready_wf g s : wf_wall s -> wf_wall (ready g s).
Proof.
  intros [Hne Hlen]; split.
  - intros E. apply Hne. apply length_zero_iff_nil.
    rewrite <- (ready_length g s), E. reflexivity.
  - now rewrite ready_length, ready_measurements.
Qed.

Lemma last_error_some {A} (l : list A) : l <> [] -> exists a, last_error l = Some a.
Proof.
  induction l as [|a l IH]; [congruence|]. intros _.
  destruct l as [|b l]; [now exists a|].
  destruct IH as [c Hc]; [congruence|]. exists c. exact Hc.
Qed.

Lemma getYAtX_ready g s px v s' :
  Spline.getYAtX g s px = Some (v, s') -> s' = ready g s.
Proof.
  unfold Spline.getYAtX. fold (ready g s).
  destruct (Spline.points (ready g s)); [discriminate|].
  destruct (last_error _); [|discriminate].
  destruct (Spline.splineCoeffs (ready g s)); [|discriminate].
  destruct (Rleb _ _); [congruence|].
  destruct (Rgeb _ _); congruence.
Qed.

Lemma getYAtX_total g s px :
  Spline.points s <> [] ->
  exists v, Spline.getYAtX g s px = Some (v, ready g s).
Proof.
  intros Hne.
  assert (Hr : Spline.points (ready g s) <> []).
  { intros E. apply Hne, length_zero_iff_nil.
    rewrite <- (ready_length g s), E. reflexivity. }
  unfold Spline.getYAtX. fold (ready g s).
  destruct (last_error_some _ Hr) as [pn Hpn].
  destruct (Spline.points (ready g s)) as [|p0 l] eqn:Ep; [congruence|].
  rewrite Hpn.
  destruct (Spline.splineCoeffs (ready g s)) eqn:Ec;
    [|now apply ready_coeffs in Ec].
  destruct (Rleb _ _); [eauto|].
  destruct (Rgeb _ _); eauto.
Qed.

(** ** The velocity update *)

Lemma calculateVelocity_eq w wall wall' x1 x2 y1 y2 V1 h :
  bottomWall w = Some wall ->
  Spline.getYAtX (globals w) wall x2 = Some (h, wall') ->
  calculateVelocity w x1 x2 y1 y2 V1 =
  Some (let g := globals w in
        let M := V1 / soundSpeed g in
        if Rltb (Rabs (1 - M * M)) 0.01 then initialVelocity g
        else V1 + 0.05 * (- ((area g h - area g y2) / area g y2) * V1
                          / (1 - M * M)),
        with_bottomWall w wall').
Proof.
  intros Hb Hy. unfold calculateVelocity. rewrite Hb, Hy. cbv zeta.
  destruct (Rltb _ _); [reflexivity|].
  f_equal. f_equal. unfold area.
  replace (pixelsToMeters (globals w) h * pixelsToMeters (globals w) h * PI)
    with (PI * (pixelsToMeters (globals w) h * pixelsToMeters (globals w) h))
    by ring.
  replace (pixelsToMeters (globals w) y2 * pixelsToMeters (globals w) y2 * PI)
    with (PI * (pixelsToMeters (globals w) y2 * pixelsToMeters (globals w) y2))
    by ring.
  ring.
Qed.

Lemma test_wall_wf top h0 h1 : wf_wall (test_wall top h0 h1).
Proof. split; simpl; [discriminate | reflexivity]. Qed.

Lemma test_wall_at_entry g top h0 h1 px :
  px <= 0 ->
  Spline.getYAtX g (test_wall top h0 h1) px = Some (h0, test_wall top h0 h1).
Proof.
  intros H. unfold Spline.getYAtX; simpl. now rewrite Rleb_true.
Qed.

Lemma test_wall_inside g top h0 h1 px :
  0 < px < 1000 ->
  Spline.getYAtX g (test_wall top h0 h1) px = Some (h1, test_wall top h0 h1).
Proof.
  intros H. unfold Spline.getYAtX; simpl.
  rewrite Rleb_false by lra. now rewrite Rgeb_false by lra.
Qed.

(** C4.  Near Mach 1, that is whenever [|1 - (V1/soundSpeed)^2| < 0.01],
    [calculateVelocity] returns exactly [initialVelocity], whatever the
    upstream height [y2] and the bottom wall (hence both areas) are. *)
Theorem calculateVelocity_near_sonic :
  forall (w : World) (wall : Spline.t) (x1 x2 y1 y2 V1 : R),
    bottomWall w = Some wall ->
    Spline.points wall <> [] ->
    Rabs (1 - (V1 / soundSpeed (globals w)) * (V1 / soundSpeed (globals w)))
      < 0.01 ->
    exists w',
      calculateVelocity w x1 x2 y1 y2 V1
      = Some (initialVelocity (globals w), w').
Proof.
  intros w wall x1 x2 y1 y2 V1 Hb Hne Hguard.
  destruct (getYAtX_total (globals w) wall x2 Hne) as [h Hh].
  rewrite (calculateVelocity_eq _ _ _ _ _ _ _ _ _ Hb Hh). cbv zeta.
  rewrite Rltb_true by exact Hguard. eauto.
Qed.

Lemma calculateVelocity_near_sonic_witness :
  exists w',
    calculateVelocity
      (test_world test_globals (test_wall true 100 100)
                  (test_wall false 400 500) [])
      0 20 100 400 342
    = Some (100, w').
Proof.
  apply (calculateVelocity_near_sonic
           (test_world test_globals (test_wall true 100 100)
                       (test_wall false 400 500) [])
           (test_wall false 400 500) 0 20 100 400 342).
  - reflexivity.
  - simpl; discriminate.
  - simpl. rcompare.
Defined.

(** ** recordVelocity *)

(** [closest] returns the index of a control point at minimal distance
    from [px], together with that distance. *)
Lemma closest_spec px :
  forall rest pre i ci cd pc,
    length pre = i ->
    nth_error (pre ++ rest) ci = Some pc ->
    cd = Rabs (Spline.x pc - px) ->
    Forall (fun p => cd <= Rabs (Spline.x p - px)) pre ->
    exists pc',
      nth_error (pre ++ rest) (fst (Spline.closest px rest i ci cd)) = Some pc'
      /\ snd (Spline.closest px rest i ci cd) = Rabs (Spline.x pc' - px)
      /\ Forall (fun p => Rabs (Spline.x pc' - px) <= Rabs (Spline.x p - px))
                (pre ++ rest).
Proof.
  induction rest as [|p rest IH]; intros pre i ci cd pc Hlen Hnth Hcd Hmin.
  - simpl. exists pc. rewrite app_nil_r in *. subst cd. auto.
  - simpl.
    replace (pre ++ p :: rest) with ((pre ++ [p]) ++ rest) in *
      by (rewrite <- app_assoc; reflexivity).
    destruct (Rltb (Rabs (Spline.x p - px)) cd) eqn:E.
    + apply Rltb_iff in E.
      apply (IH (pre ++ [p]) (S i) i _ p).
      * rewrite length_app; simpl; lia.
      * rewrite nth_error_app1 by (rewrite length_app; simpl; lia).
        rewrite nth_error_app2 by lia.
        replace (i - length pre)%nat with 0%nat by lia. reflexivity.
      * reflexivity.
      * apply Forall_app; split.
        -- eapply Forall_impl; [|exact Hmin]. simpl; intros; lra.
        -- constructor; [lra | constructor].
    + assert (~ Rabs (Spline.x p - px) < cd).
      { intros H; apply Rltb_iff in H; congruence. }
      apply (IH (pre ++ [p]) (S i) ci cd pc); auto.
      * rewrite length_app; simpl; lia.
      * apply Forall_app; split; auto.
        constructor; [lra | constructor].
Qed.

Lemma closestPoint_spec s px :
  Spline.points s <> [] ->
  exists ci pc,
    closestPoint s px = Some (ci, Rabs (Spline.x pc - px))
    /\ nth_error (Spline.points s) ci = Some pc
    /\ Forall (fun p => Rabs (Spline.x pc - px) <= Rabs (Spline.x p - px))
              (Spline.points s).
Proof.
  unfold closestPoint. destruct (Spline.points s) as [|p0 rest]; [congruence|].
  intros _.
  destruct (closest_spec px rest [p0] 1 0 (Rabs (Spline.x p0 - px)) p0)
    as [pc [H1 [H2 H3]]]; try reflexivity.
  { constructor; [lra | constructor]. }
  exists (fst (Spline.closest px rest 1 0 (Rabs (Spline.x p0 - px)))), pc.
  split; [|split].
  - rewrite <- H2. now rewrite <- surjective_pairing.
  - exact H1.
  - exact H3.
Qed.

Lemma nth_error_set_nth_eq {A} (l : list A) i v :
  (i < length l)%nat -> nth_error (set_nth i v l) i = Some v.
Proof.
  revert i; induction l as [|a l IH]; intros [|i] H; simpl in *; try lia; auto.
  apply IH; lia.
Qed.

Lemma nth_error_set_nth_neq {A} (l : list A) i j v :
  i <> j -> nth_error (set_nth i v l) j = nth_error l j.
Proof.
  revert i j; induction l as [|a l IH]; intros [|i] [|j] H; simpl;
    try congruence; auto.
Qed.

Lemma set_nth_length {A} (l : list A) i v : length (set_nth i v l) = length l.
Proof.
  revert i; induction l as [|a l IH]; intros [|i]; simpl; auto.
Qed.

Lemma recordVelocity_far s px velocity ci cd :
  closestPoint s px = Some (ci, cd) -> ~ cd < 50 ->
  Spline.recordVelocity s px velocity = Some s.
Proof.
  unfold closestPoint, Spline.recordVelocity.
  destruct (Spline.points s); [discriminate|].
  intros E H. injection E as E. rewrite E. now rewrite Rltb_false.
Qed.

Lemma recordVelocity_near s px velocity ci cd buf :
  closestPoint s px = Some (ci, cd) -> cd < 50 ->
  nth_error (Spline.velocityMeasurements s) ci = Some buf ->
  Spline.recordVelocity s px velocity
  = Some {| Spline.isTop := Spline.isTop s;
            Spline.points := Spline.points s;
            Spline.velocityMeasurements :=
              set_nth ci (pushed buf velocity) (Spline.velocityMeasurements s);
            Spline.splineCoeffs := Spline.splineCoeffs s |}.
Proof.
  unfold closestPoint, Spline.recordVelocity.
  destruct (Spline.points s); [discriminate|].
  intros E H Hb. injection E as E. rewrite E.
  rewrite Rltb_true by exact H. now rewrite Hb.
Qed.

Lemma nth_error_some_lt {A} (l : list A) i :
  (i < length l)%nat -> exists a, nth_error l i = Some a.
Proof.
  intros H. destruct (nth_error l i) eqn:E; eauto.
  apply nth_error_None in E. lia.
Qed.

Lemma recordVelocity_total s px velocity :
  wf_wall s ->
  exists s', Spline.recordVelocity s px velocity = Some s'
             /\ Spline.points s' = Spline.points s
             /\ Spline.splineCoeffs s' = Spline.splineCoeffs s
             /\ length (Spline.velocityMeasurements s')
                = length (Spline.velocityMeasurements s).
Proof.
  intros [Hne Hlen].
  destruct (closestPoint_spec s px Hne) as [ci [pc [Hc [Hn _]]]].
  destruct (Rlt_dec (Rabs (Spline.x pc - px)) 50) as [Hd|Hd].
  - assert (Hi : (ci < length (Spline.velocityMeasurements s))%nat).
    { rewrite Hlen. apply nth_error_Some. congruence. }
    destruct (nth_error_some_lt _ _ Hi) as [buf Hbuf].
    rewrite (recordVelocity_near _ _ _ _ _ _ Hc Hd Hbuf).
    eexists; split; [reflexivity|]. simpl.
    now rewrite set_nth_length.
  - rewrite (recordVelocity_far _ _ _ _ _ Hc Hd). eauto.
Qed.

Lemma recordVelocity_wf s px velocity s' :
  wf_wall s -> Spline.recordVelocity s px velocity = Some s' -> wf_wall s'.
Proof.
  intros Hwf E.
  destruct (recordVelocity_total s px velocity Hwf) as [s2 [E2 [Hp [_ Hl]]]].
  rewrite E in E2; injection E2 as <-.
  destruct Hwf as [Hne Hlen]. split; congruence.
Qed.

(** ** Particle.update *)

Lemma updateColor_speedX g p :
  Particle.speedX (Particle.updateColor g p) = Particle.speedX p.
Proof. reflexivity. Qed.

(** With two well-formed walls a tick succeeds, and the new velocity is the
    value [calculateVelocity] computes from the bottom wall's height at the
    particle and at the look-ahead position. *)
Lemma update_speedX w p t_push now top bottom hU hD b1 b2 :
  topWall w = Some top -> bottomWall w = Some bottom ->
  wf_wall top -> wf_wall bottom ->
  Spline.getYAtX (globals w) bottom (Particle.x p) = Some (hU, b1) ->
  Spline.getYAtX (globals w) b1
    (Particle.x p + metersToPixels (globals w) 0.1) = Some (hD, b2) ->
  exists p' w',
    Particle.update w p t_push now = Some (p', w')
    /\ Particle.speedX p' =
       (let g := globals w in
        let V1 := Particle.speedX p in
        let M := V1 / soundSpeed g in
        if Rltb (Rabs (1 - M * M)) 0.01 then initialVelocity g
        else V1 + 0.05 * (- ((area g hD - area g hU) / area g hU) * V1
                          / (1 - M * M))).
Proof.
  intros Ht Hb Wt Wb HU HD.
  unfold Particle.update. rewrite Ht, Hb.
  destruct (getYAtX_total (globals w) top (Particle.x p) (proj1 Wt))
    as [topY HT].
  rewrite HT, HU.
  pose proof (getYAtX_ready _ _ _ _ _ HU) as E1.
  pose proof (getYAtX_ready _ _ _ _ _ HD) as E2.
  erewrite calculateVelocity_eq; [|reflexivity|simpl; exact HD].
  cbn [globals topWall bottomWall with_bottomWall shockPoints].
  assert (W1 : wf_wall (ready (globals w) top)) by now apply ready_wf.
  assert (W2 : wf_wall b2).
  { subst b2 b1. now apply ready_wf, ready_wf. }
  match goal with
  | |- context [Spline.recordVelocity (ready (globals w) top) ?a ?b] =>
      destruct (recordVelocity_total (ready (globals w) top) a b W1)
        as [top3 [R1 _]];
      destruct (recordVelocity_total b2 a b W2) as [bottom3 [R2 _]]
  end.
  rewrite R1, R2.
  eexists; eexists; split; [reflexivity|]. reflexivity.
Qed.

(** C3.  Away from Mach 1 ([|1 - M^2| >= 0.01]) a tick replaces the
    velocity [V] by [V + 0.05 * (- dA_A * V / (1 - M^2))], where
    [dA_A = (A2 - A1) / A1], [A1] is pi times the squared height of the
    bottom wall at the particle's position and [A2] the same at the
    position 10 cm further downstream (heights in metres; the relative
    change is the same with heights in pixels).  For an area ratio 1:2,
    [V = 100] and [soundSpeed = 343] the result is within 0.1 of 94.5. *)
Theorem update_velocity_formula :
  forall (w : World) (p : Particle.t) (t_push now : R)
         (top bottom b1 b2 : Spline.t) (hU hD : R),
    topWall w = Some top -> bottomWall w = Some bottom ->
    wf_wall top -> wf_wall bottom ->
    Spline.getYAtX (globals w) bottom (Particle.x p) = Some (hU, b1) ->
    Spline.getYAtX (globals w) b1
      (Particle.x p + metersToPixels (globals w) 0.1) = Some (hD, b2) ->
    let g := globals w in
    let V := Particle.speedX p in
    let M := V / soundSpeed g in
    let A1 := area g hU in
    let A2 := area g hD in
    let dA_A := (A2 - A1) / A1 in
    Rabs (1 - M * M) >= 0.01 ->
    exists p' w',
      Particle.update w p t_push now = Some (p', w')
      /\ Particle.speedX p' = V + 0.05 * (- dA_A * V / (1 - M * M))
      /\ (canvas_width g <> 0 -> hU <> 0 ->
          dA_A = (PI * (hD * hD) - PI * (hU * hU)) / (PI * (hU * hU)))
      /\ (A1 <> 0 -> A2 = 2 * A1 -> V = 100 -> soundSpeed g = 343 ->
          Rabs (Particle.speedX p' - 94.5) < 0.1).
Proof.
  intros w p t_push now top bottom b1 b2 hU hD Ht Hb Wt Wb HU HD
         g V M A1 A2 dA_A Hguard.
  destruct (update_speedX w p t_push now top bottom hU hD b1 b2
              Ht Hb Wt Wb HU HD) as [p' [w' [E Hv]]].
  cbv zeta in Hv. fold g V M A1 A2 in Hv.
  rewrite Rltb_false in Hv by lra. fold dA_A in Hv.
  exists p', w'. split; [exact E|]. split; [exact Hv|]. split.
  - intros Hw Hh. unfold dA_A, A2, A1, area, pixelsToMeters,
      PHYSICAL_WIDTH_METERS.
    field. repeat split; auto. apply PI_neq0.
  - intros HA1 HA2 HV Hc. rewrite Hv.
    assert (EdA : dA_A = 1).
    { unfold dA_A. rewrite HA2. field. exact HA1. }
    assert (EM : 1 - M * M = 107649 / 117649).
    { unfold M. rewrite HV, Hc. field. }
    rewrite EdA, EM, HV.
    replace (- (1) * 100 / (107649 / 117649)) with (- 11764900 / 107649)
      by field.
    rcompare.
Qed.

(** A freshly spawned particle (x = 0, V = 100) in a duct whose bottom wall
    is at height 1 at the entry and at height [sqrt 2] 10 cm downstream:
    the area doubles, and one tick brings the velocity to about 94.5. *)
Lemma update_velocity_formula_witness :
  exists p' w',
    Particle.update
      (test_world test_globals (test_wall true 0 0)
                  (test_wall false 1 (sqrt 2)) [])
      (Particle.constructor test_globals 0.5 0.5 0.5) 0 0
    = Some (p', w')
    /\ Rabs (Particle.speedX p' - 94.5) < 0.1.
Proof.
  destruct (update_velocity_formula
              (test_world test_globals (test_wall true 0 0)
                          (test_wall false 1 (sqrt 2)) [])
              (Particle.constructor test_globals 0.5 0.5 0.5) 0 0
              (test_wall true 0 0) (test_wall false 1 (sqrt 2))
              (test_wall false 1 (sqrt 2)) (test_wall false 1 (sqrt 2))
              1 (sqrt 2) eq_refl eq_refl
              (test_wall_wf true 0 0) (test_wall_wf false 1 (sqrt 2)))
    as [p' [w' [E [_ [_ H12]]]]].
  - apply test_wall_at_entry. simpl. lra.
  - apply test_wall_inside. simpl. unfold metersToPixels,
      PHYSICAL_WIDTH_METERS. simpl. lra.
  - simpl. rcompare.
  - exists p', w'. split; [exact E|]. apply H12.
    + unfold area, pixelsToMeters, PHYSICAL_WIDTH_METERS; simpl.
      apply Rmult_integral_contrapositive. split; [apply PI_neq0 | lra].
    + unfold area, pixelsToMeters, PHYSICAL_WIDTH_METERS; simpl.
      replace (sqrt 2 / 1000 * 5 * (sqrt 2 / 1000 * 5))
        with (sqrt 2 * sqrt 2 * (1 / 40000)) by field.
      rewrite sqrt_sqrt by lra. field.
    + reflexivity.
    + reflexivity.
Defined.

(** ** Subsonic behaviour of the velocity update *)

Lemma area_nonneg g h : 0 <= area g h.
Proof.
  unfold area. apply Rmult_le_pos; [left; apply PI_RGT_0|].
  apply Rle_0_sqr.
Qed.




(** ** Divisions evaluated by the velocity update *)

(** Logging the divisors does not change what is computed. *)
Lemma calculateVelocity_log_erase w x1 x2 y1 y2 V1 :
  option_map fst (calculateVelocity_log w x1 x2 y1 y2 V1)
  = calculateVelocity w x1 x2 y1 y2 V1.
Proof.
  unfold calculateVelocity_log, calculateVelocity, pixelsToMeters_log.
  fold (pixelsToMeters (globals w) y2).
  destruct (bottomWall w); [|reflexivity].
  destruct (Spline.getYAtX _ _ _) as [[h wall']|]; [|reflexivity].
  fold (pixelsToMeters (globals w) h). cbv zeta.
  destruct (Rltb _ _); reflexivity.
Qed.

(** C10, as the code has it.  When the canvas width, the sound speed and
    the upstream height are all non-zero (and the bottom wall has a control
    point), [calculateVelocity] returns a number, and the divisions it
    evaluates are exactly: twice by the canvas width, by the upstream area,
    by the sound speed, and (only when [|1 - M^2| >= 0.01]) by [1 - M^2];
    none of these divisors is zero. *)
Theorem calculateVelocity_divisions :
  forall (w : World) (wall : Spline.t) (x1 x2 y1 y2 V1 : R),
    bottomWall w = Some wall ->
    Spline.points wall <> [] ->
    let g := globals w in
    let M := V1 / soundSpeed g in
    canvas_width g <> 0 -> soundSpeed g <> 0 -> y2 <> 0 ->
    exists v w' divisors,
      calculateVelocity_log w x1 x2 y1 y2 V1 = Some (v, w', divisors)
      /\ calculateVelocity w x1 x2 y1 y2 V1 = Some (v, w')
      /\ divisors
         = [canvas_width g; canvas_width g; area g y2; soundSpeed g]
           ++ (if Rlt_dec (Rabs (1 - M * M)) 0.01 then [] else [1 - M * M])
      /\ Forall (fun d => d <> 0) divisors.
Proof.
  intros w wall x1 x2 y1 y2 V1 Hb Hne g M Hw Hc Hy.
  destruct (getYAtX_total g wall x2 Hne) as [h Hh].
  pose proof (calculateVelocity_log_erase w x1 x2 y1 y2 V1) as Her.
  assert (HA : area g y2 <> 0).
  { unfold area, pixelsToMeters, PHYSICAL_WIDTH_METERS.
    apply Rmult_integral_contrapositive; split; [apply PI_neq0|].
    assert (y2 / canvas_width g <> 0).
    { unfold Rdiv. apply Rmult_integral_contrapositive; split; auto.
      now apply Rinv_neq_0_compat. }
    apply Rmult_integral_contrapositive; split;
      apply Rmult_integral_contrapositive; split; auto; lra. }
  assert (EA : pixelsToMeters g y2 * pixelsToMeters g y2 * PI = area g y2)
    by (unfold area; ring).
  unfold calculateVelocity_log, pixelsToMeters_log in *.
  fold g in Hh, Her |- *. fold (pixelsToMeters g y2) in Her |- *.
  rewrite Hb in Her |- *. rewrite Hh in Her |- *.
  fold (pixelsToMeters g h) in Her |- *. cbv zeta in Her |- *.
  fold M in Her |- *. rewrite EA in Her |- *.
  unfold Rltb in Her |- *.
  destruct (Rlt_dec (Rabs (1 - M * M)) 0.01) as [Hg|Hg].
  - eexists; eexists; eexists. split; [reflexivity|].
    split; [symmetry; exact Her|]. split; [reflexivity|].
    repeat constructor; auto.
  - eexists; eexists; eexists. split; [reflexivity|].
    split; [symmetry; exact Her|]. split; [reflexivity|].
    repeat constructor; auto.
    intros E. apply Hg. rewrite E. rcompare.
Qed.

Lemma calculateVelocity_divisions_witness :
  exists v w' divisors,
    calculateVelocity_log
      (test_world test_globals (test_wall true 100 100)
                  (test_wall false 400 500) [])
      0 20 100 400 100
    = Some (v, w', divisors)
    /\ calculateVelocity
         (test_world test_globals (test_wall true 100 100)
                     (test_wall false 400 500) [])
         0 20 100 400 100
       = Some (v, w')
    /\ divisors
       = [1000; 1000; area test_globals 400; 343]
         ++ (if Rlt_dec (Rabs (1 - 100 / 343 * (100 / 343))) 0.01 then []
             else [1 - 100 / 343 * (100 / 343)])
    /\ Forall (fun d => d <> 0) divisors.
Proof.
  apply (calculateVelocity_divisions
           (test_world test_globals (test_wall true 100 100)
                       (test_wall false 400 500) [])
           (test_wall false 400 500) 0 20 100 400 100 eq_refl).
  - simpl; discriminate.
  - simpl; lra.
  - simpl; lra.
  - lra.
Defined.

(** C10 as stated fails on the code: with a sound speed of 0 the upstream
    area is non-zero, yet [V1 / soundSpeed] divides by zero. *)
Lemma divisions_counterexample :
  let g := {| canvas_width := 1000; SHOCK_DISTANCE := 20; soundSpeed := 0;
              initialVelocity := 100; timeScale := 0.01;
              numeric_spline := fun _ _ _ => 0 |} in
  area g 400 <> 0
  /\ exists v w' divisors,
      calculateVelocity_log
        (test_world g (test_wall true 100 100) (test_wall false 400 500) [])
        0 20 100 400 100
      = Some (v, w', divisors)
      /\ nth_error divisors 3 = Some (soundSpeed g)
      /\ soundSpeed g = 0.
Proof.
  intros g. split.
  - unfold area, pixelsToMeters, PHYSICAL_WIDTH_METERS; simpl.
    apply Rmult_integral_contrapositive. split; [apply PI_neq0 | lra].
  - unfold calculateVelocity_log, pixelsToMeters_log.
    cbn [globals bottomWall test_world].
    rewrite test_wall_inside by lra. cbv zeta.
    destruct (Rltb _ _); eexists; eexists; eexists;
      (split; [reflexivity | split; reflexivity]).
Qed.

(** ** Clamping of getYAtX *)

Lemma sort_ascending l : ascending l -> Spline.sort l = l.
Proof.
  induction 1 as [|a l Hs IH Hd]; [reflexivity|].
  simpl. rewrite IH. destruct Hd as [|b l Hab]; [reflexivity|].
  simpl. now rewrite Rleb_true.
Qed.

Lemma ready_points g s :
  Spline.splineCoeffs s <> None \/ ascending (Spline.points s) ->
  Spline.points (ready g s) = Spline.points s.
Proof.
  unfold ready. destruct (Spline.splineCoeffs s); [reflexivity|].
  intros [H|H]; [congruence|]. simpl. now apply sort_ascending.
Qed.

Lemma insert_perm p l : Permutation (Spline.insert p l) (p :: l).
Proof.
  induction l as [|q l IH]; simpl; [reflexivity|].
  destruct (Rleb _ _); [reflexivity|].
  rewrite IH. apply perm_swap.
Qed.

Lemma sort_perm l : Permutation (Spline.sort l) l.
Proof.
  induction l as [|p l IH]; simpl; [reflexivity|].
  rewrite insert_perm. now constructor.
Qed.

Lemma insert_ascending p l : ascending l -> ascending (Spline.insert p l).
Proof.
  unfold ascending. induction 1 as [|q l Hs IH Hd]; simpl.
  - constructor; constructor.
  - destruct (Rleb (Spline.x p) (Spline.x q)) eqn:E.
    + apply Rleb_iff in E.
      constructor; [constructor; assumption | constructor; exact E].
    + assert (Hqp : Spline.x q <= Spline.x p).
      { destruct (Rle_dec (Spline.x p) (Spline.x q)) as [H|H];
          [apply Rleb_iff in H; congruence | lra]. }
      constructor; [exact IH|].
      destruct Hd as [|r l Hqr]; simpl.
      * constructor. exact Hqp.
      * destruct (Rleb (Spline.x p) (Spline.x r)); constructor; assumption.
Qed.

Lemma sort_is_ascending l : ascending (Spline.sort l).
Proof.
  induction l as [|p l IH]; simpl; [constructor|].
  now apply insert_ascending.
Qed.

Lemma last_error_In {A} (l : list A) a : last_error l = Some a -> In a l.
Proof.
  induction l as [|b l IH]; [discriminate|].
  destruct l as [|c l]; simpl in *.
  - intros E; injection E; auto.
  - intros E. right. apply IH. exact E.
Qed.






(** ** The rolling buffers *)

Lemma pushed_slice buf velocity :
  (length buf <= 50)%nat ->
  pushed buf velocity = slice_last 50 (buf ++ [velocity]).
Proof.
  intros H. unfold pushed, slice_last.
  rewrite length_app; simpl length.
  destruct (Nat.ltb 50 (length buf + 1)) eqn:E.
  - apply Nat.ltb_lt in E.
    replace (length buf + 1 - 50)%nat with 1%nat by lia.
    destruct buf; reflexivity.
  - apply Nat.ltb_ge in E.
    replace (length buf + 1 - 50)%nat with 0%nat by lia. reflexivity.
Qed.

Lemma slice_last_length {A} n (l : list A) :
  (length (slice_last n l) <= n)%nat.
Proof. unfold slice_last. rewrite length_skipn. lia. Qed.

Lemma slice_last_app {A} n (l r : list A) :
  slice_last n (slice_last n l ++ r) = slice_last n (l ++ r).
Proof.
  unfold slice_last.
  rewrite !length_app, length_skipn.
  destruct (Nat.le_gt_cases (length l) n) as [H|H].
  - replace (length l - n)%nat with 0%nat by lia. simpl.
    now rewrite Nat.sub_0_r.
  - replace (length l - (length l - n) + length r - n)%nat
      with (length r) by lia.
    replace (length l + length r - n)%nat
      with (length r + (length l - n))%nat by lia.
    rewrite <- skipn_skipn. f_equal.
    rewrite skipn_app.
    replace (length l - n - length l)%nat with 0%nat by lia. reflexivity.
Qed.

Lemma recordAll_buffer :
  forall samples s i buf,
    wf_wall s ->
    nth_error (Spline.velocityMeasurements s) i = Some buf ->
    (length buf <= 50)%nat ->
    Forall (fun sample => exists d,
                closestPoint s (fst sample) = Some (i, d) /\ d < 50) samples ->
    exists s',
      recordAll s samples = Some s'
      /\ nth_error (Spline.velocityMeasurements s') i
         = Some (slice_last 50 (buf ++ map snd samples)).
Proof.
  induction samples as [|[px v] rest IH]; intros s i buf Hwf Hbuf Hlen Hall.
  - exists s. split; [reflexivity|]. simpl. rewrite app_nil_r.
    unfold slice_last. now replace (length buf - 50)%nat with 0%nat by lia.
  - inversion Hall as [|? ? [d [Hc Hd]] Hrest]; subst. simpl in Hc.
    simpl recordAll.
    rewrite (recordVelocity_near _ _ _ _ _ _ Hc Hd Hbuf).
    set (s1 := {| Spline.isTop := Spline.isTop s;
                  Spline.points := Spline.points s;
                  Spline.velocityMeasurements :=
                    set_nth i (pushed buf v) (Spline.velocityMeasurements s);
                  Spline.splineCoeffs := Spline.splineCoeffs s |}).
    assert (Hi : (i < length (Spline.velocityMeasurements s))%nat).
    { apply nth_error_Some. congruence. }
    destruct (IH s1 i (pushed buf v)) as [s' [E Hs']].
    + destruct Hwf as [Hne Hl]. split; simpl; auto.
      now rewrite set_nth_length.
    + simpl. now apply nth_error_set_nth_eq.
    + rewrite pushed_slice by exact Hlen. apply slice_last_length.
    + eapply Forall_impl; [|exact Hrest]. intros sample H. exact H.
    + exists s'. split; [exact E|]. rewrite Hs'.
      rewrite pushed_slice by exact Hlen.
      rewrite slice_last_app, <- app_assoc. reflexivity.
Qed.

(** C8.  [recordVelocity] picks a control point at minimal distance from
    the recorded position; no other point's buffer changes, and the picked
    point's buffer receives the sample only when that distance is below
    50 (otherwise the wall is unchanged).  After 51 samples recorded at one
    control point, starting from an empty buffer, the buffer holds the
    last 50 of them in order. *)
Theorem recordVelocity_rolling_buffer :
  forall (s : Spline.t) (px velocity : R),
    wf_wall s ->
    (exists ci pc s',
        closestPoint s px = Some (ci, Rabs (Spline.x pc - px))
        /\ nth_error (Spline.points s) ci = Some pc
        /\ Forall (fun p => Rabs (Spline.x pc - px) <= Rabs (Spline.x p - px))
                  (Spline.points s)
        /\ Spline.recordVelocity s px velocity = Some s'
        /\ (forall i, i <> ci ->
                      nth_error (Spline.velocityMeasurements s') i
                      = nth_error (Spline.velocityMeasurements s) i)
        /\ (Rabs (Spline.x pc - px) < 50 ->
            exists buf,
              nth_error (Spline.velocityMeasurements s) ci = Some buf
              /\ nth_error (Spline.velocityMeasurements s') ci
                 = Some (if Nat.ltb 50 (length (buf ++ [velocity]))
                         then tl (buf ++ [velocity])
                         else buf ++ [velocity]))
        /\ (~ Rabs (Spline.x pc - px) < 50 -> s' = s))
    /\ (forall (i : nat) (samples : list (R * R)),
           nth_error (Spline.velocityMeasurements s) i = Some [] ->
           length samples = 51%nat ->
           Forall (fun sample => exists d,
                       closestPoint s (fst sample) = Some (i, d) /\ d < 50)
                  samples ->
           exists s',
             recordAll s samples = Some s'
             /\ nth_error (Spline.velocityMeasurements s') i
                = Some (map snd (skipn 1 samples))).
Proof.
  intros s px velocity Hwf. split.
  - destruct (closestPoint_spec s px (proj1 Hwf)) as [ci [pc [Hc [Hn Hmin]]]].
    exists ci, pc.
    destruct (Rlt_dec (Rabs (Spline.x pc - px)) 50) as [Hd|Hd].
    + assert (Hi : (ci < length (Spline.velocityMeasurements s))%nat).
      { rewrite (proj2 Hwf). apply nth_error_Some. congruence. }
      destruct (nth_error_some_lt _ _ Hi) as [buf Hbuf].
      eexists. split; [exact Hc|]. split; [exact Hn|]. split; [exact Hmin|].
      split; [exact (recordVelocity_near _ _ _ _ _ _ Hc Hd Hbuf)|].
      simpl. split; [|split].
      * intros i Hneq. now apply nth_error_set_nth_neq.
      * intros _. exists buf. split; [exact Hbuf|].
        now apply nth_error_set_nth_eq.
      * intros H; contradiction.
    + exists s. split; [exact Hc|]. split; [exact Hn|]. split; [exact Hmin|].
      split; [exact (recordVelocity_far _ _ _ _ _ Hc Hd)|].
      split; [reflexivity|]. split; [intros H; contradiction|reflexivity].
  - intros i samples Hbuf Hlen Hall.
    destruct (recordAll_buffer samples s i [] Hwf Hbuf) as [s' [E Hs']];
      [simpl; lia | exact Hall |].
    exists s'. split; [exact E|]. rewrite Hs'. simpl.
    unfold slice_last. rewrite length_map, Hlen.
    replace (51 - 50)%nat with 1%nat by lia.
    now rewrite skipn_map.
Qed.

Lemma recordVelocity_rolling_buffer_witness :
  exists s',
    recordAll (test_wall false 400 500) test_samples = Some s'
    /\ nth_error (Spline.velocityMeasurements s') 0
       = Some (map snd (skipn 1 test_samples)).
Proof.
  destruct (recordVelocity_rolling_buffer
              (test_wall false 400 500) 0 1 (test_wall_wf false 400 500))
    as [_ H].
  apply (H 0%nat test_samples).
  - reflexivity.
  - reflexivity.
  - apply Forall_forall. intros sample Hin.
    unfold test_samples in Hin. apply in_map_iff in Hin.
    destruct Hin as [k [<- _]].
    exists (Rabs (0 - 0)). split.
    + unfold closestPoint; simpl. now rewrite Rltb_false by rcompare.
    + rcompare.
Defined.

(** ** The normalised lateral coordinate *)

Lemma update_normalizedY w p t_push now p' w' :
  Particle.update w p t_push now = Some (p', w') ->
  Particle.normalizedY p' = Particle.normalizedY p.
Proof.
  unfold Particle.update.
  destruct (topWall w) as [top|]; [destruct (bottomWall w) as [bottom|]|].
  - destruct (Spline.getYAtX _ top _) as [[topY top1]|]; [|discriminate].
    destruct (Spline.getYAtX _ bottom _) as [[bottomY bottom1]|];
      [|discriminate].
    destruct (calculateVelocity _ _ _ _ _ _) as [[v w2]|]; [|discriminate].
    destruct (topWall w2) as [top2|]; [|discriminate].
    destruct (bottomWall w2) as [bottom2|]; [|discriminate].
    destruct (Spline.recordVelocity top2 _ _); [|discriminate].
    destruct (Spline.recordVelocity bottom2 _ _); [|discriminate].
    intros E; injection E as <- _. reflexivity.
  - intros E; injection E as <- _. reflexivity.
  - intros E; injection E as <- _. reflexivity.
Qed.

Lemma reset_normalizedY g p n rnd_size rnd_y rnd_opacity :
  Particle.normalizedY p = Some n ->
  Particle.normalizedY (Particle.reset g p rnd_size rnd_y rnd_opacity)
  = Some n.
Proof. intros H. simpl. now rewrite H. Qed.

Lemma step_normalizedY p p' n :
  particle_step p p' ->
  Particle.normalizedY p = Some n -> Particle.normalizedY p' = Some n.
Proof.
  intros [g rs ry ro ->|w w' t now E] H.
  - now apply reset_normalizedY.
  - now rewrite (update_normalizedY _ _ _ _ _ _ E).
Qed.

(** C9.  Once a particle has its [normalizedY], a [reset] keeps it, a tick
    keeps it, and so does any sequence of resets and ticks. *)
Theorem normalizedY_never_modified :
  forall (p : Particle.t) (n : R),
    Particle.normalizedY p = Some n ->
    (forall g rnd_size rnd_y rnd_opacity,
        Particle.normalizedY (Particle.reset g p rnd_size rnd_y rnd_opacity)
        = Some n)
    /\ (forall w t_push now p' w',
           Particle.update w p t_push now = Some (p', w') ->
           Particle.normalizedY p' = Some n)
    /\ (forall p', clos_refl_trans _ particle_step p p' ->
                   Particle.normalizedY p' = Some n).
Proof.
  intros p n H. split; [|split].
  - intros. now apply reset_normalizedY.
  - intros w t now p' w' E. now rewrite (update_normalizedY _ _ _ _ _ _ E).
  - intros p' Hsteps. revert H.
    induction Hsteps as [a b Hstep| |a b c _ IH1 _ IH2]; intros H; auto.
    eapply step_normalizedY; eauto.
Qed.

(** The constructor draws [normalizedY]; the second [reset] of the spawn
    sequence in [animate] and later ticks leave it alone. *)
Lemma normalizedY_never_modified_witness :
  (forall g rnd_size rnd_y rnd_opacity,
      Particle.normalizedY
        (Particle.reset g (Particle.constructor test_globals 0.5 0.25 0.5)
                        rnd_size rnd_y rnd_opacity)
      = Some 0.25)
  /\ (forall w t_push now p' w',
         Particle.update w (Particle.constructor test_globals 0.5 0.25 0.5)
                         t_push now = Some (p', w') ->
         Particle.normalizedY p' = Some 0.25)
  /\ (forall p',
         clos_refl_trans _ particle_step
           (Particle.constructor test_globals 0.5 0.25 0.5) p' ->
         Particle.normalizedY p' = Some 0.25).
Proof.
  apply (normalizedY_never_modified
           (Particle.constructor test_globals 0.5 0.25 0.5) 0.25).
  reflexivity.
Defined.

(** ** Bucket keys *)

Lemma Math_round_eq (r : R) (k : Z) :
  IZR k - 0.5 <= r < IZR k + 0.5 -> Math_round r = IZR k.
Proof.
  intros H. unfold Math_round. f_equal. apply Zfloor_eq. lra.
Qed.

(** C2, as the code has it.  Two positions that lie in the same bucket
    cell, the half-open interval of width [SHOCK_DISTANCE] centred on a
    multiple [k * SHOCK_DISTANCE] (lower end included), both get the key
    [k * SHOCK_DISTANCE]. *)
Theorem roundedX_same_cell :
  forall (g : Globals) (p q : R) (k : Z),
    let D := SHOCK_DISTANCE g in
    0 < D ->
    IZR k * D - D / 2 <= p < IZR k * D + D / 2 ->
    IZR k * D - D / 2 <= q < IZR k * D + D / 2 ->
    roundedX g p = IZR k * D /\ roundedX g q = roundedX g p.
Proof.
  intros g p q k D HD Hp Hq.
  assert (Hcell : forall r, IZR k * D - D / 2 <= r < IZR k * D + D / 2 ->
                            roundedX g r = IZR k * D).
  { intros r Hr. unfold roundedX. fold D. f_equal.
    apply Math_round_eq.
    assert (Er : r = r / D * D) by (field; lra).
    split.
    - apply Rmult_le_reg_r with D; [exact HD|]. lra.
    - apply Rmult_lt_reg_r with D; [exact HD|]. lra. }
  split; [now apply Hcell|]. now rewrite !Hcell.
Qed.

Lemma roundedX_same_cell_witness :
  roundedX test_globals 31 = IZR 2 * SHOCK_DISTANCE test_globals
  /\ roundedX test_globals 49 = roundedX test_globals 31.
Proof.
  apply (roundedX_same_cell test_globals 31 49 2); simpl; lra.
Defined.

(** C2 as stated fails on the code: with a grouping distance of 20, the
    positions 9 and 11 are 2 apart, far less than half the distance, and
    get the keys 0 and 20. *)
Lemma roundedX_counterexample :
  Rabs (9 - 11) <= SHOCK_DISTANCE test_globals / 2
  /\ roundedX test_globals 9 = 0
  /\ roundedX test_globals 11 = 20
  /\ roundedX test_globals 9 <> roundedX test_globals 11.
Proof.
  assert (E9 : roundedX test_globals 9 = 0).
  { unfold roundedX; simpl. rewrite (Math_round_eq _ 0); lra. }
  assert (E11 : roundedX test_globals 11 = 20).
  { unfold roundedX; simpl. rewrite (Math_round_eq _ 1); lra. }
  split; [simpl; rcompare|]. split; [exact E9|]. split; [exact E11|].
  rewrite E9, E11. lra.
Qed.

(** ** The shock map *)

Lemma Map_get_set_same k v m : Map_get k (Map_set k v m) = Some v.
Proof.
  induction m as [|[k' v'] m IH]; simpl.
  - now rewrite Reqb_refl.
  - destruct (Reqb k' k) eqn:E; simpl; rewrite E; auto.
Qed.

Lemma Map_set_set k v v' m : Map_set k v (Map_set k v' m) = Map_set k v m.
Proof.
  induction m as [|[k' v''] m IH]; simpl.
  - now rewrite Reqb_refl.
  - destruct (Reqb k' k) eqn:E; simpl; rewrite E; congruence.
Qed.

Lemma Map_set_keys k v m :
  map fst (Map_set k v m)
  = match Map_get k m with
    | Some _ => map fst m
    | None => map fst m ++ [k]
    end.
Proof.
  induction m as [|[k' v'] m IH]; simpl; [reflexivity|].
  destruct (Reqb k' k) eqn:E; simpl; [reflexivity|].
  rewrite IH. destruct (Map_get k m); reflexivity.
Qed.

Lemma Map_get_none k m : Map_get k m = None <-> ~ In k (map fst m).
Proof.
  induction m as [|[k' v'] m IH]; simpl; [tauto|].
  destruct (Reqb k' k) eqn:E.
  - apply Reqb_iff in E. split; [discriminate | intros H; elim H; auto].
  - assert (k' <> k) by (intros H; apply Reqb_iff in H; congruence).
    rewrite IH. tauto.
Qed.

Lemma Map_set_NoDup k v m :
  NoDup (map fst m) -> NoDup (map fst (Map_set k v m)).
Proof.
  intros H. rewrite Map_set_keys.
  destruct (Map_get k m) eqn:E; [exact H|].
  apply Map_get_none in E.
  apply NoDup_rev in H. rewrite <- (rev_involutive (map fst m ++ [k])).
  apply NoDup_rev. rewrite rev_app_distr; simpl.
  constructor; [|exact H]. now rewrite <- in_rev.
Qed.

Lemma recordTransition_eq g m px newMach t_push now :
  recordTransition g m px newMach t_push now
  = Map_set (roundedX g px)
      (slice_last SHOCK_WINDOW
         (filter (fun t => Rltb (now - timestamp t) SHOCK_LIFETIME)
            (bucket m (roundedX g px)
             ++ [ {| type := if Rgeb newMach 1 then 1%Z else (-1)%Z;
                     timestamp := t_push |} ])))
      m.
Proof.
  unfold recordTransition, bucket. cbv zeta.
  destruct (Map_get (roundedX g px) m) eqn:E.
  - rewrite E. reflexivity.
  - rewrite Map_get_set_same, Map_set_set. reflexivity.
Qed.

Lemma pruneShocks_expired now k v m :
  NoDup (map fst m) -> Map_get k m = Some v -> expired now v = true ->
  Map_get k (pruneShocks now m) = None.
Proof.
  unfold pruneShocks.
  induction m as [|[k' v'] m IH]; simpl; [discriminate|].
  intros Hnd Hget Hexp. inversion Hnd as [|? ? Hnotin Hnd']; subst.
  destruct (Reqb k' k) eqn:E.
  - injection Hget as ->. rewrite Hexp. simpl.
    apply Reqb_iff in E; subst k'.
    apply Map_get_none. intros Hin. apply Hnotin.
    apply in_map_iff in Hin. destruct Hin as [kv [Hk Hin]].
    apply filter_In in Hin. apply in_map_iff. exists kv. tauto.
  - destruct (negb (expired now v')); simpl; [rewrite E|]; auto.
Qed.

Lemma slice_last_In {A} n (l : list A) a : In a (slice_last n l) -> In a l.
Proof.
  unfold slice_last. intros H.
  rewrite <- (firstn_skipn (length l - n) l). apply in_or_app. now right.
Qed.

(** A bucket all of whose events are at least [SHOCK_LIFETIME] old is
    deleted by the clean-up loop. *)
Lemma expired_all_old now tmax l :
  Forall (fun e => timestamp e <= tmax) l ->
  now >= tmax + SHOCK_LIFETIME ->
  expired now l = true.
Proof.
  intros Hall Hnow. unfold expired.
  destruct (last_error l) as [e|] eqn:E; [|reflexivity].
  apply last_error_In in E.
  rewrite Forall_forall in Hall. specialize (Hall e E).
  apply Rgeb_true. lra.
Qed.

(** ** Drawing the shocks *)

Lemma ready_nonempty g s :
  Spline.points s <> [] -> Spline.points (ready g s) <> [].
Proof.
  intros Hne E. apply Hne, length_zero_iff_nil.
  rewrite <- (ready_length g s), E. reflexivity.
Qed.

Lemma drawShocks_spec g now :
  forall m top bottom,
    Spline.points top <> [] -> Spline.points bottom <> [] ->
    exists strokes top' bottom',
      drawShocks g now top bottom m = Some (strokes, top', bottom')
      /\ map (fun s => (stroke_x s, strokeStyle s)) strokes
         = map (fun kv => (fst kv, shockStyle now (snd kv)))
               (filter (fun kv => drawn (snd kv)) m).
Proof.
  induction m as [|[k ts] m IH]; intros top bottom Ht Hb; simpl.
  - eauto.
  - destruct (drawn ts) eqn:Ed.
    + destruct (getYAtX_total g top k Ht) as [topY HT].
      destruct (getYAtX_total g bottom k Hb) as [bottomY HB].
      rewrite HT, HB.
      destruct (IH (ready g top) (ready g bottom))
        as [strokes [top' [bottom' [E Hmap]]]];
        try now apply ready_nonempty.
      rewrite E. eexists; eexists; eexists. split; [reflexivity|].
      simpl. now rewrite Hmap.
    + apply IH; assumption.
Qed.

Lemma animateShocks_spec w now top bottom :
  topWall w = Some top -> bottomWall w = Some bottom ->
  Spline.points top <> [] -> Spline.points bottom <> [] ->
  exists strokes w',
    animateShocks w now = Some (strokes, w')
    /\ shockPoints w' = pruneShocks now (shockPoints w)
    /\ map (fun s => (stroke_x s, strokeStyle s)) strokes
       = map (fun kv => (fst kv, shockStyle now (snd kv)))
             (filter (fun kv => drawn (snd kv))
                     (pruneShocks now (shockPoints w))).
Proof.
  intros Ht Hb Pt Pb. unfold animateShocks. rewrite Ht, Hb.
  destruct (drawShocks_spec (globals w) now
              (pruneShocks now (shockPoints w)) top bottom Pt Pb)
    as [strokes [top' [bottom' [E Hmap]]]].
  rewrite E. eexists; eexists. split; [reflexivity|]. split; auto.
Qed.

Lemma category_shockStyle now ts :
  category (shockStyle now ts)
  = Some (if Nat.leb SHOCK_THRESHOLD (superCount ts)
          then SupersonicEntry else SubsonicEntry).
Proof. unfold shockStyle. destruct (Nat.leb _ _); reflexivity. Qed.

(** C1, as the code has it.  The shock pass strokes one marker per
    surviving bucket that reaches the threshold; the marker is red
    (supersonic entry) as soon as the bucket holds [SHOCK_THRESHOLD] = 1
    supersonic-entry events, however many subsonic-entry events it holds,
    and blue (subsonic entry) otherwise.  This is the direction with the
    larger count (ties to supersonic entry) when the bucket has no
    supersonic-entry event or at least as many of them as subsonic-entry
    events. *)
Theorem shock_marker_category :
  forall (w : World) (now : R) (top bottom : Spline.t),
    topWall w = Some top -> bottomWall w = Some bottom ->
    Spline.points top <> [] -> Spline.points bottom <> [] ->
    exists strokes w',
      animateShocks w now = Some (strokes, w')
      /\ map (fun s => (stroke_x s, category (strokeStyle s))) strokes
         = map (fun kv =>
                  (fst kv,
                   Some (if Nat.leb SHOCK_THRESHOLD (superCount (snd kv))
                         then SupersonicEntry else SubsonicEntry)))
               (filter (fun kv => drawn (snd kv))
                       (pruneShocks now (shockPoints w)))
      /\ (forall ts,
             drawn ts = true ->
             (superCount ts = 0 \/ subCount ts <= superCount ts)%nat ->
             category (shockStyle now ts) = Some (dominant ts)).
Proof.
  intros w now top bottom Ht Hb Pt Pb.
  destruct (animateShocks_spec w now top bottom Ht Hb Pt Pb)
    as [strokes [w' [E [_ Hmap]]]].
  exists strokes, w'. split; [exact E|]. split.
  - transitivity
      (map (fun xs : R * Color => (fst xs, category (snd xs)))
           (map (fun s => (stroke_x s, strokeStyle s)) strokes)).
    + rewrite map_map. reflexivity.
    + rewrite Hmap, map_map. apply map_ext. intros [k ts]; simpl.
      now rewrite category_shockStyle.
  - intros ts Hd Hc. rewrite category_shockStyle. unfold dominant.
    unfold drawn in Hd. apply orb_true_iff in Hd.
    unfold SHOCK_THRESHOLD in *.
    assert (Hd' : (1 <= superCount ts \/ 1 <= subCount ts)%nat).
    { destruct Hd as [Hd|Hd]; apply Nat.leb_le in Hd; auto. }
    clear Hd.
    destruct (Nat.leb 1 (superCount ts)) eqn:E1;
      destruct (Nat.leb (subCount ts) (superCount ts)) eqn:E2; auto.
    + apply Nat.leb_le in E1. apply Nat.leb_gt in E2. lia.
    + apply Nat.leb_gt in E1. apply Nat.leb_le in E2. lia.
Qed.

Lemma shock_marker_category_witness :
  exists strokes w',
    animateShocks
      (test_world test_globals (test_wall true 100 100)
                  (test_wall false 400 400) [(0, mixed_bucket)]) 3
    = Some (strokes, w')
    /\ map (fun s => (stroke_x s, category (strokeStyle s))) strokes
       = map (fun kv =>
                (fst kv,
                 Some (if Nat.leb SHOCK_THRESHOLD (superCount (snd kv))
                       then SupersonicEntry else SubsonicEntry)))
             (filter (fun kv => drawn (snd kv))
                     (pruneShocks 3 [(0, mixed_bucket)]))
    /\ (forall ts,
           drawn ts = true ->
           (superCount ts = 0 \/ subCount ts <= superCount ts)%nat ->
           category (shockStyle 3 ts) = Some (dominant ts)).
Proof.
  apply (shock_marker_category
           (test_world test_globals (test_wall true 100 100)
                       (test_wall false 400 400) [(0, mixed_bucket)])
           3 (test_wall true 100 100) (test_wall false 400 400)
           eq_refl eq_refl).
  - simpl; discriminate.
  - simpl; discriminate.
Defined.

Lemma pruneShocks_mixed : pruneShocks 3 [(0, mixed_bucket)] = [(0, mixed_bucket)].
Proof.
  unfold pruneShocks, expired; simpl.
  now rewrite Rgeb_false by (unfold SHOCK_LIFETIME; lra).
Qed.

(** C1 as stated fails on the code: the bucket below holds two
    subsonic-entry events and one supersonic-entry event, so subsonic
    entry has the larger count, and its marker is red. *)
Lemma shock_marker_category_counterexample :
  superCount mixed_bucket = 1%nat
  /\ subCount mixed_bucket = 2%nat
  /\ dominant mixed_bucket = SubsonicEntry
  /\ exists stroke w',
      animateShocks
        (test_world test_globals (test_wall true 100 100)
                    (test_wall false 400 400) [(0, mixed_bucket)]) 3
      = Some ([stroke], w')
      /\ stroke_x stroke = 0
      /\ category (strokeStyle stroke) = Some SupersonicEntry.
Proof.
  split; [reflexivity|]. split; [reflexivity|]. split; [reflexivity|].
  unfold animateShocks.
  cbn [topWall bottomWall shockPoints globals test_world].
  rewrite pruneShocks_mixed.
  cbn [drawShocks].
  replace (drawn mixed_bucket) with true by reflexivity.
  rewrite !test_wall_at_entry by lra.
  eexists; eexists. split; [reflexivity|]. split; reflexivity.
Qed.

(** ** Expiry of shock buckets *)

Lemma slice_last_snoc {A} n (l : list A) a :
  (1 <= n)%nat -> In a (slice_last n (l ++ [a])).
Proof.
  intros Hn. unfold slice_last. rewrite length_app; simpl length.
  rewrite skipn_app.
  replace (length l + 1 - n - length l)%nat with 0%nat by lia.
  apply in_or_app. right. simpl. auto.
Qed.

Lemma filter_snoc {A} (f : A -> bool) l a :
  f a = true -> filter f (l ++ [a]) = filter f l ++ [a].
Proof. intros H. rewrite filter_app. simpl. now rewrite H. Qed.

Lemma strokes_keys (strokes : list Stroke) (m : ShockMap) (now : R) :
  map (fun s => (stroke_x s, strokeStyle s)) strokes
  = map (fun kv => (fst kv, shockStyle now (snd kv)))
        (filter (fun kv => drawn (snd kv)) m) ->
  forall k, In k (map stroke_x strokes) -> In k (map fst m).
Proof.
  intros Hmap k Hin.
  assert (E : map stroke_x strokes
              = map fst (filter (fun kv => drawn (snd kv)) m)).
  { transitivity (map fst (map (fun s => (stroke_x s, strokeStyle s)) strokes)).
    - rewrite map_map. reflexivity.
    - rewrite Hmap, map_map. reflexivity. }
  rewrite E in Hin. apply in_map_iff in Hin. destruct Hin as [kv [Hk Hin]].
  apply filter_In in Hin. apply in_map_iff. exists kv. tauto.
Qed.

(** C6, as the code has it.  Take a transition pushed at time [T] into a
    bucket whose events are not younger than [T].  The event is in the
    bucket when the clock read back right after the push is within the
    lifetime.  If nothing is pushed to that bucket afterwards, then a
    shock pass at any time [now >= T + 300] deletes the bucket and strokes
    no marker at its position. *)
Theorem shock_bucket_expiry :
  forall (w : World) (px newMach T now0 now : R) (top bottom : Spline.t),
    topWall w = Some top -> bottomWall w = Some bottom ->
    Spline.points top <> [] -> Spline.points bottom <> [] ->
    let g := globals w in
    let key := roundedX g px in
    let event := {| type := if Rgeb newMach 1 then 1%Z else (-1)%Z;
                    timestamp := T |} in
    let w1 := {| globals := g; topWall := Some top; bottomWall := Some bottom;
                 shockPoints :=
                   recordTransition g (shockPoints w) px newMach T now0 |} in
    NoDup (map fst (shockPoints w)) ->
    Forall (fun e => timestamp e <= T) (bucket (shockPoints w) key) ->
    now >= T + SHOCK_LIFETIME ->
    (now0 - T < SHOCK_LIFETIME -> In event (bucket (shockPoints w1) key))
    /\ exists strokes w2,
        animateShocks w1 now = Some (strokes, w2)
        /\ ~ In key (map stroke_x strokes)
        /\ Map_get key (shockPoints w2) = None.
Proof.
  intros w px newMach T now0 now top bottom Ht Hb Pt Pb g key event w1
         Hnd Hold Hnow.
  assert (Em : shockPoints w1
               = Map_set key
                   (slice_last SHOCK_WINDOW
                      (filter (fun t => Rltb (now0 - timestamp t)
                                             SHOCK_LIFETIME)
                              (bucket (shockPoints w) key ++ [event])))
                   (shockPoints w)).
  { unfold w1; simpl. apply recordTransition_eq. }
  split.
  - intros Hfresh. unfold bucket at 1. rewrite Em, Map_get_set_same.
    rewrite filter_snoc by (apply Rltb_true; exact Hfresh).
    apply slice_last_snoc. unfold SHOCK_WINDOW; lia.
  - destruct (animateShocks_spec w1 now top bottom eq_refl eq_refl Pt Pb)
      as [strokes [w2 [E [Hsp Hmap]]]].
    assert (Hgone : Map_get key (pruneShocks now (shockPoints w1)) = None).
    { rewrite Em. eapply pruneShocks_expired.
      - now apply Map_set_NoDup.
      - apply Map_get_set_same.
      - apply (expired_all_old now T); [|exact Hnow].
        apply Forall_forall. intros e He.
        apply slice_last_In, filter_In in He. destruct He as [He _].
        apply in_app_or in He. destruct He as [He|[<-|[]]].
        + rewrite Forall_forall in Hold. now apply Hold.
        + simpl. lra. }
    exists strokes, w2. split; [exact E|]. split.
    + intros Hin. apply (strokes_keys _ _ _ Hmap) in Hin.
      apply Map_get_none in Hgone. contradiction.
    + now rewrite Hsp.
Qed.

Lemma shock_bucket_expiry_witness :
  let w1 := {| globals := test_globals;
               topWall := Some (test_wall true 100 100);
               bottomWall := Some (test_wall false 400 400);
               shockPoints := recordTransition test_globals [] 0 1.2 0 0 |} in
  exists strokes w2,
    animateShocks w1 300 = Some (strokes, w2)
    /\ ~ In (roundedX test_globals 0) (map stroke_x strokes)
    /\ Map_get (roundedX test_globals 0) (shockPoints w2) = None.
Proof.
  apply (shock_bucket_expiry
           (test_world test_globals (test_wall true 100 100)
                       (test_wall false 400 400) [])
           0 1.2 0 0 300 (test_wall true 100 100) (test_wall false 400 400)
           eq_refl eq_refl).
  - simpl; discriminate.
  - simpl; discriminate.
  - simpl. constructor.
  - unfold bucket; simpl. constructor.
  - unfold SHOCK_LIFETIME. lra.
Defined.

Lemma roundedX_test_0 : roundedX test_globals 0 = 0.
Proof. unfold roundedX; simpl. rewrite (Math_round_eq _ 0); lra. Qed.

Lemma recordTransition_first :
  recordTransition test_globals [] 0 1.2 0 0 = [(0, [stale_event])].
Proof.
  rewrite recordTransition_eq, roundedX_test_0. unfold bucket; simpl.
  rewrite Rgeb_true by lra.
  now rewrite Rltb_true by (unfold SHOCK_LIFETIME; lra).
Qed.

Lemma recordTransition_second :
  recordTransition test_globals [(0, [stale_event])] 0 0.5 200 200
  = [(0, [stale_event; fresh_event])].
Proof.
  rewrite recordTransition_eq, roundedX_test_0. unfold bucket; simpl.
  rewrite Reqb_refl. simpl.
  rewrite Rgeb_false by lra.
  rewrite !Rltb_true by (unfold SHOCK_LIFETIME; lra).
  reflexivity.
Qed.

(** C6 as stated fails on the code: a supersonic-entry event pushed at
    time 0 and a subsonic-entry event pushed at time 200 share a bucket.
    At time 350, which is 300 after the first push, the shock pass keeps
    the bucket with the first event in it, and strokes its marker red,
    the colour of that first event. *)
Lemma shock_bucket_expiry_counterexample :
  let m1 := recordTransition test_globals [] 0 1.2 0 0 in
  let m2 := recordTransition test_globals m1 0 0.5 200 200 in
  let w := test_world test_globals (test_wall true 100 100)
                      (test_wall false 400 400) m2 in
  350 >= 0 + SHOCK_LIFETIME
  /\ exists stroke w',
      animateShocks w 350 = Some ([stroke], w')
      /\ stroke_x stroke = roundedX test_globals 0
      /\ category (strokeStyle stroke) = Some SupersonicEntry
      /\ Map_get (roundedX test_globals 0) (shockPoints w')
         = Some [stale_event; fresh_event].
Proof.
  cbv zeta. split; [unfold SHOCK_LIFETIME; lra|].
  rewrite recordTransition_first, recordTransition_second, roundedX_test_0.
  unfold animateShocks.
  cbn [topWall bottomWall shockPoints globals test_world].
  assert (Ep : pruneShocks 350 [(0, [stale_event; fresh_event])]
               = [(0, [stale_event; fresh_event])]).
  { unfold pruneShocks, expired; simpl.
    now rewrite Rgeb_false by (unfold SHOCK_LIFETIME; lra). }
  rewrite Ep. cbn [drawShocks].
  replace (drawn [stale_event; fresh_event]) with true by reflexivity.
  rewrite !test_wall_at_entry by lra.
  eexists; eexists. split; [reflexivity|]. split; [reflexivity|].
  split; [reflexivity|]. simpl. now rewrite Reqb_refl.
Qed.

(** ** Where ticks push transitions *)

Lemma calculateVelocity_frame w x1 x2 y1 y2 V1 v w' :
  calculateVelocity w x1 x2 y1 y2 V1 = Some (v, w') ->
  shockPoints w' = shockPoints w /\ globals w' = globals w
  /\ topWall w' = topWall w.
Proof.
  unfold calculateVelocity.
  destruct (bottomWall w); [|discriminate].
  destruct (Spline.getYAtX _ _ _) as [[h wall']|]; [|discriminate].
  cbv zeta. destruct (Rltb _ _); intros E; injection E as _ <-; auto.
Qed.

(** A tick changes the shock map only by [recordTransition], at the
    particle's position before the move, and only when the Mach number
    crosses 1. *)
Lemma update_shockPoints w p t_push now p' w' top bottom :
  topWall w = Some top -> bottomWall w = Some bottom ->
  Particle.update w p t_push now = Some (p', w') ->
  let g := globals w in
  let prevMach := Particle.speedX p / soundSpeed g in
  let newMach := Particle.speedX p' / soundSpeed g in
  shockPoints w'
  = if (Rltb prevMach 1 && Rgeb newMach 1)
       || (Rgeb prevMach 1 && Rltb newMach 1)
    then recordTransition g (shockPoints w) (Particle.x p) newMach t_push now
    else shockPoints w.
Proof.
  intros Ht Hb. unfold Particle.update. rewrite Ht, Hb.
  destruct (Spline.getYAtX _ top _) as [[topY top1]|]; [|discriminate].
  destruct (Spline.getYAtX _ bottom _) as [[bottomY bottom1]|];
    [|discriminate].
  destruct (calculateVelocity _ _ _ _ _ _) as [[v w2]|] eqn:Ec;
    [|discriminate].
  apply calculateVelocity_frame in Ec. destruct Ec as [Es _].
  simpl in Es.
  destruct (topWall w2) as [top2|]; [|discriminate].
  destruct (bottomWall w2) as [bottom2|]; [|discriminate].
  destruct (Spline.recordVelocity top2 _ _); [|discriminate].
  destruct (Spline.recordVelocity bottom2 _ _); [|discriminate].
  intros E; injection E as <- <-. simpl. rewrite Es. reflexivity.
Qed.

(** * Further properties of the script *)

(** ** Unit conversion *)

(** X1.  On a canvas of non-zero width, [metersToPixels] and
    [pixelsToMeters] are inverse to each other. *)
Theorem meters_pixels_roundtrip :
  forall (g : Globals) (v : R),
    canvas_width g <> 0 ->
    pixelsToMeters g (metersToPixels g v) = v
    /\ metersToPixels g (pixelsToMeters g v) = v.
Proof.
  intros g v H. unfold pixelsToMeters, metersToPixels, PHYSICAL_WIDTH_METERS.
  split; field; exact H.
Qed.

Lemma meters_pixels_roundtrip_witness :
  pixelsToMeters test_globals (metersToPixels test_globals 0.1) = 0.1
  /\ metersToPixels test_globals (pixelsToMeters test_globals 0.1) = 0.1.
Proof.
  apply (meters_pixels_roundtrip test_globals 0.1). simpl. lra.
Defined.

(** ** The velocity update in a straight and in a supersonic duct *)

Lemma area_square g h1 h2 : h1 * h1 = h2 * h2 -> area g h1 = area g h2.
Proof.
  intros H. unfold area, pixelsToMeters.
  replace (h1 / canvas_width g * PHYSICAL_WIDTH_METERS
           * (h1 / canvas_width g * PHYSICAL_WIDTH_METERS))
    with (h1 * h1 * (/ canvas_width g * PHYSICAL_WIDTH_METERS
                     * (/ canvas_width g * PHYSICAL_WIDTH_METERS)))
    by (unfold Rdiv; ring).
  rewrite H. unfold Rdiv. ring.
Qed.

(** X2.  On a canvas of non-zero width, with a non-zero sound speed and a
    non-zero upstream height [y2] (so that no division is by zero): where
    the bottom wall is as far from the axis at the look-ahead position as
    at the particle ([h] equal to [y2] up to sign), and the flow is not
    near-sonic, [calculateVelocity] returns the velocity unchanged. *)
Theorem calculateVelocity_constant_area :
  forall (w : World) (wall wall' : Spline.t) (x1 x2 y1 y2 V1 h : R),
    bottomWall w = Some wall ->
    Spline.getYAtX (globals w) wall x2 = Some (h, wall') ->
    canvas_width (globals w) <> 0 ->
    soundSpeed (globals w) <> 0 ->
    y2 <> 0 ->
    h * h = y2 * y2 ->
    Rabs (1 - (V1 / soundSpeed (globals w)) * (V1 / soundSpeed (globals w)))
      >= 0.01 ->
    calculateVelocity w x1 x2 y1 y2 V1 = Some (V1, with_bottomWall w wall').
Proof.
  intros w wall wall' x1 x2 y1 y2 V1 h Hb Hy _ _ _ Hh Hguard.
  rewrite (calculateVelocity_eq _ _ _ _ _ _ _ _ _ Hb Hy). cbv zeta.
  rewrite Rltb_false by lra.
  rewrite (area_square _ _ _ Hh). f_equal. f_equal. unfold Rdiv. ring.
Qed.

Lemma calculateVelocity_constant_area_witness :
  calculateVelocity
    (test_world test_globals (test_wall true 100 100)
                (test_wall false 400 400) [])
    0 20 100 400 100
  = Some (100,
          with_bottomWall
            (test_world test_globals (test_wall true 100 100)
                        (test_wall false 400 400) [])
            (test_wall false 400 400)).
Proof.
  apply (calculateVelocity_constant_area
           (test_world test_globals (test_wall true 100 100)
                       (test_wall false 400 400) [])
           (test_wall false 400 400) (test_wall false 400 400)
           0 20 100 400 100 400 eq_refl).
  - apply test_wall_inside. lra.
  - simpl. lra.
  - simpl. lra.
  - lra.
  - reflexivity.
  - simpl. rcompare.
Defined.

(** X3.  For a positive supersonic velocity outside the near-sonic band
    ([1 - M^2 <= -0.01]) and a non-zero upstream area, the update behaves
    like a supersonic nozzle: a larger downstream area raises the velocity
    and a smaller one lowers it. *)
Theorem calculateVelocity_supersonic_monotone :
  forall (w : World) (wall wall' : Spline.t) (x1 x2 y1 y2 V1 h : R),
    bottomWall w = Some wall ->
    Spline.getYAtX (globals w) wall x2 = Some (h, wall') ->
    let g := globals w in
    let M := V1 / soundSpeed g in
    let areaUpstream := area g y2 in
    let areaDownstream := area g h in
    0 < V1 -> 1 - M * M <= - 0.01 -> areaUpstream <> 0 ->
    exists v w',
      calculateVelocity w x1 x2 y1 y2 V1 = Some (v, w')
      /\ (areaDownstream > areaUpstream -> v > V1)
      /\ (areaDownstream < areaUpstream -> v < V1).
Proof.
  intros w wall wall' x1 x2 y1 y2 V1 h Hb Hy g M A1 A2 HV Hband HA1.
  rewrite (calculateVelocity_eq _ _ _ _ _ _ _ _ _ Hb Hy). cbv zeta.
  fold g M A1 A2.
  rewrite Rltb_false by (unfold Rabs; destruct (Rcase_abs _); lra).
  eexists; eexists; split; [reflexivity|].
  assert (HA1pos : 0 < A1).
  { pose proof (area_nonneg g y2) as Hn. fold A1 in Hn. lra. }
  replace (- ((A2 - A1) / A1) * V1 / (1 - M * M))
    with ((A2 - A1) * (V1 / (A1 * (M * M - 1))))
    by (field; split; lra).
  assert (HK : 0 < V1 / (A1 * (M * M - 1))).
  { apply Rdiv_lt_0_compat; [lra|]. apply Rmult_lt_0_compat; lra. }
  split; intros H; nra.
Qed.

Lemma calculateVelocity_supersonic_monotone_witness :
  exists v w',
    calculateVelocity
      (test_world test_globals (test_wall true 100 100)
                  (test_wall false 400 500) [])
      0 20 100 400 686
    = Some (v, w')
    /\ (area test_globals 500 > area test_globals 400 -> v > 686)
    /\ (area test_globals 500 < area test_globals 400 -> v < 686).
Proof.
  apply (calculateVelocity_supersonic_monotone
           (test_world test_globals (test_wall true 100 100)
                       (test_wall false 400 500) [])
           (test_wall false 400 500) (test_wall false 400 500)
           0 20 100 400 686 500 eq_refl).
  - apply test_wall_inside. lra.
  - lra.
  - simpl. lra.
  - unfold area, pixelsToMeters, PHYSICAL_WIDTH_METERS; simpl.
    apply Rmult_integral_contrapositive. split; [apply PI_neq0 | lra].
Defined.

(** ** Sorting the control points *)

(** Inserting keeps the points of one downstream coordinate in order, the
    inserted point first. *)
Lemma insert_stable c p l :
  filter (fun q => Reqb (Spline.x q) c) (Spline.insert p l)
  = filter (fun q => Reqb (Spline.x q) c) (p :: l).
Proof.
  induction l as [|q l IH]; [reflexivity|].
  simpl Spline.insert.
  destruct (Rleb (Spline.x p) (Spline.x q)) eqn:E; [reflexivity|].
  assert (Hlt : ~ Spline.x p <= Spline.x q).
  { intros H; apply Rleb_iff in H; congruence. }
  cbn [filter]. rewrite IH. cbn [filter].
  destruct (Reqb (Spline.x p) c) eqn:Ep; destruct (Reqb (Spline.x q) c) eqn:Eq;
    try reflexivity.
  apply Reqb_iff in Ep. apply Reqb_iff in Eq. lra.
Qed.

Lemma sort_stable c l :
  filter (fun q => Reqb (Spline.x q) c) (Spline.sort l)
  = filter (fun q => Reqb (Spline.x q) c) l.
Proof.
  induction l as [|p l IH]; [reflexivity|].
  simpl Spline.sort. rewrite insert_stable. simpl. now rewrite IH.
Qed.

(** X4.  [initializeSpline] leaves the control points in ascending order of
    their downstream coordinate; they are the former points rearranged,
    points sharing a coordinate keep their relative order, a second
    initialisation changes nothing more, and the measurement buffers stay
    where they were (attached to the index, not to the point). *)
Theorem initializeSpline_sorts :
  forall (g : Globals) (s : Spline.t),
    let s' := Spline.initializeSpline g s in
    ascending (Spline.points s')
    /\ Permutation (Spline.points s') (Spline.points s)
    /\ (forall c, filter (fun q => Reqb (Spline.x q) c) (Spline.points s')
                  = filter (fun q => Reqb (Spline.x q) c) (Spline.points s))
    /\ Spline.initializeSpline g s' = s'
    /\ Spline.velocityMeasurements s' = Spline.velocityMeasurements s.
Proof.
  intros g s s'. unfold s'; simpl.
  split; [apply sort_is_ascending|]. split; [apply sort_perm|].
  split; [intros c; apply sort_stable|]. split; [|reflexivity].
  unfold Spline.initializeSpline; simpl.
  now rewrite (sort_ascending _ (sort_is_ascending _)).
Qed.

(** ** getYAtX as a query *)

Lemma getYAtX_via_ready g s px :
  Spline.getYAtX g (ready g s) px = Spline.getYAtX g s px.
Proof.
  unfold Spline.getYAtX. fold (ready g s). fold (ready g (ready g s)).
  now rewrite ready_ready.
Qed.

(** X5.  Only the first [getYAtX] on a wall can change it: on the wall a
    query returns, every later query succeeds, returns that same wall, and
    repeats the answer when asked at the same position. *)
Theorem getYAtX_settles :
  forall (g : Globals) (s s' : Spline.t) (px v : R),
    Spline.getYAtX g s px = Some (v, s') ->
    Spline.getYAtX g s' px = Some (v, s')
    /\ forall px', exists v', Spline.getYAtX g s' px' = Some (v', s').
Proof.
  intros g s s' px v H.
  pose proof (getYAtX_ready _ _ _ _ _ H) as ->.
  split.
  - now rewrite getYAtX_via_ready.
  - intros px'. rewrite getYAtX_via_ready.
    assert (Hne : Spline.points s <> []).
    { intros E. revert H. unfold Spline.getYAtX. fold (ready g s).
      destruct (Spline.points (ready g s)) eqn:Ep; [discriminate|].
      assert (L : length (Spline.points (ready g s)) = 0%nat)
        by (rewrite ready_length, E; reflexivity).
      rewrite Ep in L. discriminate. }
    apply getYAtX_total. exact Hne.
Qed.

Lemma getYAtX_settles_witness :
  Spline.getYAtX test_globals (test_wall false 400 500) 20
  = Some (500, test_wall false 400 500)
  /\ forall px', exists v',
      Spline.getYAtX test_globals (test_wall false 400 500) px'
      = Some (v', test_wall false 400 500).
Proof.
  apply (getYAtX_settles test_globals (test_wall false 400 500)
                         (test_wall false 400 500) 20 500).
  apply test_wall_inside. lra.
Defined.

(** ** Averages *)

Lemma fold_left_Rplus_bounds lo hi l :
  Forall (fun v => lo <= v <= hi) l ->
  forall a,
    a + lo * INR (length l) <= fold_left Rplus l a <= a + hi * INR (length l).
Proof.
  induction 1 as [|v l Hv Hl IH]; intros a.
  - simpl. lra.
  - cbn [fold_left]. specialize (IH (a + v)).
    change (length (v :: l)) with (S (length l)). rewrite S_INR. lra.
Qed.

(** X6.  [getAverageVelocity] of a non-empty buffer lies between any two
    bounds of its samples. *)
Theorem getAverageVelocity_bounds :
  forall (s : Spline.t) (pointIndex : nat) (buf : list R) (lo hi : R),
    nth_error (Spline.velocityMeasurements s) pointIndex = Some buf ->
    buf <> [] ->
    Forall (fun v => lo <= v <= hi) buf ->
    exists avg,
      Spline.getAverageVelocity s pointIndex = Some avg /\ lo <= avg <= hi.
Proof.
  intros s i buf lo hi Hn Hne Hall.
  unfold Spline.getAverageVelocity. rewrite Hn.
  destruct buf as [|v buf]; [congruence|].
  cbn [length Nat.eqb].
  eexists; split; [reflexivity|].
  pose proof (fold_left_Rplus_bounds lo hi _ Hall 0) as [H1 H2].
  assert (Hpos : 0 < INR (length (v :: buf))).
  { apply lt_0_INR. simpl; lia. }
  split.
  - apply Rmult_le_reg_r with (INR (length (v :: buf))); [exact Hpos|].
    unfold Rdiv. rewrite Rmult_assoc, Rinv_l by lra. lra.
  - apply Rmult_le_reg_r with (INR (length (v :: buf))); [exact Hpos|].
    unfold Rdiv. rewrite Rmult_assoc, Rinv_l by lra. lra.
Qed.

Lemma getAverageVelocity_bounds_witness :
  exists avg,
    Spline.getAverageVelocity
      {| Spline.isTop := false; Spline.points := [];
         Spline.velocityMeasurements := [ [100; 120; 110] ];
         Spline.splineCoeffs := None |} 0
    = Some avg
    /\ 100 <= avg <= 120.
Proof.
  apply (getAverageVelocity_bounds _ 0%nat [100; 120; 110] 100 120).
  - reflexivity.
  - discriminate.
  - repeat constructor; lra.
Defined.

(** ** Bounded buffers *)

Lemma Forall_set_nth {A} (P : A -> Prop) (l : list A) i v :
  Forall P l -> P v -> Forall P (set_nth i v l).
Proof.
  intros Hl Hv. revert i.
  induction Hl as [|a l Ha Hl IH]; intros [|i]; simpl; constructor; auto.
Qed.

Lemma pushed_length buf velocity :
  (length buf <= 50)%nat -> (length (pushed buf velocity) <= 50)%nat.
Proof.
  intros H. rewrite pushed_slice by exact H. apply slice_last_length.
Qed.

Lemma recordVelocity_bound_step :
  forall (s : Spline.t) (px velocity : R),
    wf_wall s -> buffers_bounded s ->
    exists s',
      Spline.recordVelocity s px velocity = Some s'
      /\ wf_wall s' /\ buffers_bounded s'
      /\ Spline.points s' = Spline.points s
      /\ Spline.splineCoeffs s' = Spline.splineCoeffs s
      /\ Spline.isTop s' = Spline.isTop s.
Proof.
  intros s px velocity Hwf Hb.
  destruct (closestPoint_spec s px (proj1 Hwf)) as [ci [pc [Hc [Hn _]]]].
  destruct (Rlt_dec (Rabs (Spline.x pc - px)) 50) as [Hd|Hd].
  - assert (Hi : (ci < length (Spline.velocityMeasurements s))%nat).
    { rewrite (proj2 Hwf). apply nth_error_Some. congruence. }
    destruct (nth_error_some_lt _ _ Hi) as [buf Hbuf].
    rewrite (recordVelocity_near _ _ _ _ _ _ Hc Hd Hbuf).
    eexists; split; [reflexivity|].
    split; [|split; [|auto]].
    + destruct Hwf as [Hne Hlen]. split; simpl; auto.
      now rewrite set_nth_length.
    + unfold buffers_bounded in *. simpl. apply Forall_set_nth; [exact Hb|].
      apply pushed_length.
      rewrite Forall_forall in Hb. apply Hb.
      eapply nth_error_In; eauto.
  - rewrite (recordVelocity_far _ _ _ _ _ Hc Hd). exists s. auto 10.
Qed.

(** X7.  On a wall with a control point and one buffer per control point,
    [recordVelocity] succeeds and keeps every buffer at 50 samples or
    fewer; it never touches the control points, the interpolant or the
    number of buffers. *)
Theorem recordVelocity_keeps_bound :
  forall (s : Spline.t) (px velocity : R),
    wf_wall s -> buffers_bounded s ->
    exists s',
      Spline.recordVelocity s px velocity = Some s'
      /\ wf_wall s' /\ buffers_bounded s'
      /\ Spline.points s' = Spline.points s
      /\ Spline.splineCoeffs s' = Spline.splineCoeffs s
      /\ Spline.isTop s' = Spline.isTop s.
Proof. exact recordVelocity_bound_step. Qed.

Lemma recordVelocity_keeps_bound_witness :
  exists s',
    Spline.recordVelocity (test_wall false 400 500) 10 100 = Some s'
    /\ wf_wall s' /\ buffers_bounded s'
    /\ Spline.points s' = Spline.points (test_wall false 400 500)
    /\ Spline.splineCoeffs s' = Spline.splineCoeffs (test_wall false 400 500)
    /\ Spline.isTop s' = Spline.isTop (test_wall false 400 500).
Proof.
  apply (recordVelocity_keeps_bound (test_wall false 400 500) 10 100).
  - apply test_wall_wf.
  - unfold buffers_bounded; simpl. repeat constructor; simpl; lia.
Defined.

(** ** Ties between control points *)

Lemma closest_first px :
  forall rest pre i ci cd,
    length pre = i -> (ci < i)%nat ->
    Forall (fun p => cd <= Rabs (Spline.x p - px)) pre ->
    (forall j pj, (j < ci)%nat -> nth_error pre j = Some pj ->
                  cd < Rabs (Spline.x pj - px)) ->
    forall j pj,
      (j < fst (Spline.closest px rest i ci cd))%nat ->
      nth_error (pre ++ rest) j = Some pj ->
      snd (Spline.closest px rest i ci cd) < Rabs (Spline.x pj - px).
Proof.
  induction rest as [|p rest IH];
    intros pre i ci cd Hlen Hci Hmin Hstrict j pj.
  - simpl. rewrite app_nil_r. apply Hstrict.
  - simpl.
    replace (pre ++ p :: rest) with ((pre ++ [p]) ++ rest)
      by (rewrite <- app_assoc; reflexivity).
    destruct (Rltb (Rabs (Spline.x p - px)) cd) eqn:E.
    + apply Rltb_iff in E. apply IH.
      * rewrite length_app; simpl; lia.
      * lia.
      * apply Forall_app; split.
        -- eapply Forall_impl; [|exact Hmin]. simpl; intros; lra.
        -- constructor; [lra | constructor].
      * intros k pk Hk Hnth.
        rewrite nth_error_app1 in Hnth by lia.
        rewrite Forall_forall in Hmin.
        apply nth_error_In in Hnth. specialize (Hmin _ Hnth). lra.
    + assert (~ Rabs (Spline.x p - px) < cd).
      { intros H; apply Rltb_iff in H; congruence. }
      apply IH.
      * rewrite length_app; simpl; lia.
      * lia.
      * apply Forall_app; split; auto. constructor; [lra | constructor].
      * intros k pk Hk Hnth.
        rewrite nth_error_app1 in Hnth by lia. eapply Hstrict; eauto.
Qed.

(** X8.  Among control points at the same minimal distance from the
    recorded position, [recordVelocity] selects the one of lowest index:
    every control point before the selected one is strictly farther. *)
Theorem closestPoint_first :
  forall (s : Spline.t) (px cd : R) (ci : nat),
    closestPoint s px = Some (ci, cd) ->
    forall j pj,
      (j < ci)%nat -> nth_error (Spline.points s) j = Some pj ->
      cd < Rabs (Spline.x pj - px).
Proof.
  intros s px cd ci. unfold closestPoint.
  destruct (Spline.points s) as [|p0 rest]; [discriminate|].
  intros E j pj Hj Hn. injection E as E.
  pose proof (closest_first px rest [p0] 1 0 (Rabs (Spline.x p0 - px))
                eq_refl) as H.
  rewrite E in H. simpl in H. apply (H ltac:(lia)) with (j := j); auto.
  - constructor; [lra | constructor].
  - intros k pk Hk. lia.
Qed.

Lemma closestPoint_first_witness :
  Rabs (1000 - 900) < Rabs (Spline.x {| Spline.x := 0; Spline.y := 400 |} - 900).
Proof.
  apply (closestPoint_first (test_wall false 400 500) 900
                            (Rabs (1000 - 900)) 1) with (j := 0%nat).
  - unfold closestPoint; simpl. now rewrite Rltb_true by rcompare.
  - lia.
  - reflexivity.
Defined.

(** ** What a pushed transition does to the shock map *)

Lemma Map_get_set_other k k' v m :
  k' <> k -> Map_get k' (Map_set k v m) = Map_get k' m.
Proof.
  intros Hneq. induction m as [|[k0 v0] m IH]; simpl.
  - rewrite Reqb_false; auto.
  - destruct (Reqb k0 k) eqn:E; simpl.
    + apply Reqb_iff in E. subst k0. rewrite Reqb_false; auto.
    + destruct (Reqb k0 k'); auto.
Qed.

Lemma slice_last_Forall {A} (P : A -> Prop) n l :
  Forall P l -> Forall P (slice_last n l).
Proof.
  intros H. apply Forall_forall. intros a Ha.
  rewrite Forall_forall in H. apply H. eapply slice_last_In; eauto.
Qed.

(** X9.  After a transition is pushed at position [px], its bucket is
    present, holds at most [SHOCK_WINDOW] = 100 events, all of them younger
    than [SHOCK_LIFETIME] at the time read back after the push (so the
    bucket is empty when even the new event is stale); every other bucket
    is untouched and no key is duplicated. *)
Theorem recordTransition_bucket :
  forall (g : Globals) (m : ShockMap) (px newMach t_push now : R),
    let m' := recordTransition g m px newMach t_push now in
    let key := roundedX g px in
    (exists l, Map_get key m' = Some l
               /\ (length l <= SHOCK_WINDOW)%nat
               /\ Forall (fun e => now - timestamp e < SHOCK_LIFETIME) l
               /\ (~ now - t_push < SHOCK_LIFETIME ->
                   Forall (fun e => timestamp e <= t_push) (bucket m key) ->
                   l = []))
    /\ (forall k, k <> key -> Map_get k m' = Map_get k m)
    /\ (NoDup (map fst m) -> NoDup (map fst m')).
Proof.
  intros g m px newMach t_push now m' key. unfold m'.
  rewrite recordTransition_eq. fold key. split; [|split].
  - eexists. split; [apply Map_get_set_same|]. split; [|split].
    + apply slice_last_length.
    + apply slice_last_Forall. apply Forall_forall. intros e He.
      apply filter_In in He. destruct He as [_ He]. now apply Rltb_iff in He.
    + intros Hstale Hold.
      match goal with
      | |- slice_last _ ?l = [] => assert (El : l = [])
      end.
      { match goal with
        | |- ?l = [] => destruct l as [|e l'] eqn:El; [reflexivity|]
        end.
        assert (Hin : In e (e :: l')) by (left; reflexivity).
        rewrite <- El in Hin. apply filter_In in Hin.
        destruct Hin as [Hin Hf]. apply Rltb_iff in Hf.
        apply in_app_or in Hin. destruct Hin as [Hin|[<-|[]]].
        - rewrite Forall_forall in Hold. specialize (Hold _ Hin). lra.
        - simpl in Hf. contradiction. }
      rewrite El. reflexivity.
  - intros k Hk. now apply Map_get_set_other.
  - apply Map_set_NoDup.
Qed.

Lemma Map_set_Forall (P : list ShockEvent -> Prop) k v m :
  Forall (fun kv => P (snd kv)) m -> P v ->
  Forall (fun kv => P (snd kv)) (Map_set k v m).
Proof.
  intros Hm Hv. induction Hm as [|[k0 v0] m H0 Hm IH]; simpl.
  - constructor; auto.
  - destruct (Reqb k0 k); constructor; auto.
Qed.

Lemma bucket_Forall (P : ShockEvent -> Prop) m k :
  Forall (fun kv => Forall P (snd kv)) m -> Forall P (bucket m k).
Proof.
  unfold bucket. induction 1 as [|[k0 v0] m H0 Hm IH]; simpl.
  - constructor.
  - destruct (Reqb k0 k); auto.
Qed.

Lemma recordTransition_typed g m px newMach t_push now :
  typed m -> typed (recordTransition g m px newMach t_push now).
Proof.
  intros H. rewrite recordTransition_eq. unfold typed.
  apply (Map_set_Forall (Forall (fun e => type e = 1%Z \/ type e = (-1)%Z)));
    [exact H|].
  apply slice_last_Forall. apply Forall_forall. intros e He.
  apply filter_In in He. destruct He as [He _].
  apply in_app_or in He. destruct He as [He|[<-|[]]].
  - pose proof (bucket_Forall _ m (roundedX g px) H) as Hb.
    rewrite Forall_forall in Hb. now apply Hb.
  - simpl. destruct (Rgeb newMach 1); auto.
Qed.

(** ** The clean-up loop *)

Lemma pruneShocks_fresh_iff :
  forall (now : R) (m : ShockMap),
    (forall k ts,
        In (k, ts) (pruneShocks now m)
        <-> In (k, ts) m
            /\ exists e, last_error ts = Some e
                         /\ now - timestamp e < SHOCK_LIFETIME)
    /\ pruneShocks now (pruneShocks now m) = pruneShocks now m
    /\ (length (pruneShocks now m) <= length m)%nat.
Proof.
  intros now m. split; [|split].
  - intros k ts. unfold pruneShocks. rewrite filter_In. simpl.
    unfold expired. split.
    + intros [Hin Hf]. split; [exact Hin|].
      destruct (last_error ts) as [e|]; [|discriminate].
      exists e. split; [reflexivity|].
      destruct (Rgeb (now - timestamp e) SHOCK_LIFETIME) eqn:E;
        [discriminate|].
      destruct (Rlt_dec (now - timestamp e) SHOCK_LIFETIME); auto.
      assert (now - timestamp e >= SHOCK_LIFETIME) by lra.
      apply Rgeb_iff in H. congruence.
    + intros [Hin [e [He Hfresh]]]. split; [exact Hin|].
      rewrite He. now rewrite Rgeb_false by lra.
  - unfold pruneShocks.
    induction m as [|kv m IH]; simpl; [reflexivity|].
    destruct (negb (expired now (snd kv))) eqn:E; simpl; rewrite ?E, IH;
      reflexivity.
  - unfold pruneShocks. apply filter_length_le.
Qed.

Lemma freshBucket_expired now ts : freshBucket now ts = negb (expired now ts).
Proof.
  unfold freshBucket, expired. destruct (last_error ts) as [e|]; [|reflexivity].
  destruct (Rlt_dec (now - timestamp e) SHOCK_LIFETIME) as [H|H].
  - rewrite Rltb_true by exact H. now rewrite Rgeb_false by lra.
  - rewrite Rltb_false by exact H. now rewrite Rgeb_true by lra.
Qed.

(** X10.  The clean-up loop keeps exactly the buckets whose last event is
    younger than [SHOCK_LIFETIME], with their events unchanged and in the
    order of the map: it is the filter of the map by that test.  Running it
    again at the same time removes nothing more, and it never adds a
    bucket. *)
Theorem pruneShocks_keeps_fresh :
  forall (now : R) (m : ShockMap),
    pruneShocks now m = filter (fun kv => freshBucket now (snd kv)) m
    /\ (forall k ts,
           In (k, ts) (pruneShocks now m)
           <-> In (k, ts) m
               /\ exists e, last_error ts = Some e
                            /\ now - timestamp e < SHOCK_LIFETIME)
    /\ pruneShocks now (pruneShocks now m) = pruneShocks now m
    /\ (length (pruneShocks now m) <= length m)%nat.
Proof.
  intros now m. split; [|apply pruneShocks_fresh_iff].
  unfold pruneShocks. apply filter_ext. intros kv.
  symmetry. apply freshBucket_expired.
Qed.

(** ** One marker per surviving bucket *)

Lemma counts_typed ts :
  Forall (fun e => type e = 1%Z \/ type e = (-1)%Z) ts ->
  (superCount ts + subCount ts = length ts)%nat.
Proof.
  unfold superCount, subCount.
  induction 1 as [|e ts [He|He] Hts IH]; simpl; [reflexivity| |];
    rewrite He; simpl; lia.
Qed.

Lemma drawn_typed ts :
  Forall (fun e => type e = 1%Z \/ type e = (-1)%Z) ts ->
  ts <> [] -> drawn ts = true.
Proof.
  intros Ht Hne. pose proof (counts_typed ts Ht) as Hc.
  assert (0 < length ts)%nat by (destruct ts; [congruence | simpl; lia]).
  unfold drawn, SHOCK_THRESHOLD. apply orb_true_iff.
  destruct (superCount ts) as [|n] eqn:E.
  - right. apply Nat.leb_le. lia.
  - left. reflexivity.
Qed.

Lemma pruneShocks_typed now m : typed m -> typed (pruneShocks now m).
Proof.
  unfold typed, pruneShocks. intros H. apply Forall_forall. intros kv Hin.
  apply filter_In in Hin. rewrite Forall_forall in H. now apply H.
Qed.

Lemma filter_all {A} (f : A -> bool) l :
  Forall (fun a => f a = true) l -> filter f l = l.
Proof.
  induction 1 as [|a l Ha Hl IH]; simpl; [reflexivity|].
  now rewrite Ha, IH.
Qed.

(** X11.  When every event in the map has type 1 or -1, as the events
    pushed by [update] do, the shock pass strokes exactly one marker per
    bucket that survives the clean-up, in the order of the map; the map it
    leaves behind is the cleaned one. *)
Theorem animateShocks_one_marker_per_bucket :
  forall (w : World) (now : R) (top bottom : Spline.t),
    topWall w = Some top -> bottomWall w = Some bottom ->
    Spline.points top <> [] -> Spline.points bottom <> [] ->
    typed (shockPoints w) ->
    exists strokes w',
      animateShocks w now = Some (strokes, w')
      /\ map stroke_x strokes = map fst (pruneShocks now (shockPoints w))
      /\ shockPoints w' = pruneShocks now (shockPoints w)
      /\ typed (shockPoints w').
Proof.
  intros w now top bottom Ht Hb Pt Pb Hty.
  destruct (animateShocks_spec w now top bottom Ht Hb Pt Pb)
    as [strokes [w' [E [Hsp Hmap]]]].
  exists strokes, w'. split; [exact E|]. split; [|split; [exact Hsp|]].
  - rewrite filter_all in Hmap.
    + transitivity
        (map fst (map (fun s => (stroke_x s, strokeStyle s)) strokes)).
      * rewrite map_map. reflexivity.
      * rewrite Hmap, map_map. reflexivity.
    + apply Forall_forall. intros [k ts] Hin. simpl.
      apply drawn_typed.
      * pose proof (pruneShocks_typed now _ Hty) as Hp.
        unfold typed in Hp. rewrite Forall_forall in Hp.
        apply (Hp _ Hin).
      * apply (proj1 (pruneShocks_fresh_iff now (shockPoints w))) in Hin.
        destruct Hin as [_ [e [He _]]]. intros ->. discriminate.
  - rewrite Hsp. now apply pruneShocks_typed.
Qed.

Lemma animateShocks_one_marker_per_bucket_witness :
  exists strokes w',
    animateShocks
      (test_world test_globals (test_wall true 100 100)
                  (test_wall false 400 400) [(0, mixed_bucket)]) 3
    = Some (strokes, w')
    /\ map stroke_x strokes = map fst (pruneShocks 3 [(0, mixed_bucket)])
    /\ shockPoints w' = pruneShocks 3 [(0, mixed_bucket)]
    /\ typed (shockPoints w').
Proof.
  apply (animateShocks_one_marker_per_bucket
           (test_world test_globals (test_wall true 100 100)
                       (test_wall false 400 400) [(0, mixed_bucket)])
           3 (test_wall true 100 100) (test_wall false 400 400)
           eq_refl eq_refl).
  - simpl; discriminate.
  - simpl; discriminate.
  - unfold typed, mixed_bucket; simpl.
    constructor; [|constructor]. simpl.
    repeat (apply Forall_cons; [simpl; auto|]). apply Forall_nil.
Defined.

(** ** Opacity of the markers *)

Lemma fold_left_Rmax_spec l :
  forall a,
    a <= fold_left Rmax l a
    /\ Forall (fun v => v <= fold_left Rmax l a) l
    /\ (fold_left Rmax l a = a \/ In (fold_left Rmax l a) l).
Proof.
  induction l as [|v l IH]; intros a; simpl.
  - split; [lra|]. split; [constructor | now left].
  - destruct (IH (Rmax a v)) as [H1 [H2 H3]].
    pose proof (Rmax_l a v). pose proof (Rmax_r a v).
    split; [lra|]. split; [constructor; [lra | exact H2]|].
    destruct H3 as [H3|H3]; [|now right; right].
    rewrite H3. unfold Rmax. destruct (Rle_dec a v); auto.
Qed.

Lemma Math_max_spec l :
  l <> [] -> In (Math_max l) l /\ Forall (fun v => v <= Math_max l) l.
Proof.
  destruct l as [|a l]; [congruence|]. intros _. unfold Math_max.
  destruct (fold_left_Rmax_spec l a) as [H1 [H2 H3]]. split.
  - destruct H3 as [H3|H3]; [left; now rewrite H3 | now right].
  - constructor; assumption.
Qed.

Lemma alpha_shockStyle now ts :
  alpha (shockStyle now ts) = shockOpacity now ts.
Proof. unfold shockStyle. destruct (Nat.leb _ _); reflexivity. Qed.

Lemma shockOpacity_positive now ts e :
  In e ts -> now - timestamp e < SHOCK_LIFETIME -> 0 < shockOpacity now ts.
Proof.
  intros Hin Hfresh. unfold shockOpacity, SHOCK_LIFETIME in *.
  assert (Hne : map timestamp ts <> []) by (destruct ts; [destruct Hin | discriminate]).
  destruct (Math_max_spec _ Hne) as [_ Hmax].
  rewrite Forall_forall in Hmax.
  specialize (Hmax (timestamp e) (in_map timestamp _ _ Hin)).
  unfold Rmax. destruct (Rle_dec _ _); lra.
Qed.

Lemma shockOpacity_le_1 now ts :
  ts <> [] -> Forall (fun e => timestamp e <= now) ts ->
  shockOpacity now ts <= 1.
Proof.
  intros Hne Hpast. unfold shockOpacity, SHOCK_LIFETIME.
  assert (Hne' : map timestamp ts <> []) by (destruct ts; [congruence | discriminate]).
  destruct (Math_max_spec _ Hne') as [Hin _].
  apply in_map_iff in Hin. destruct Hin as [e [He Hin]].
  rewrite Forall_forall in Hpast. specialize (Hpast _ Hin).
  unfold Rmax. destruct (Rle_dec _ _); lra.
Qed.

(** X12.  Every marker the shock pass strokes is visible: its opacity is
    positive.  The opacity is at most 1 when no event carries a time stamp
    later than the time of the pass. *)
Theorem animateShocks_opacity :
  forall (w : World) (now : R) (top bottom : Spline.t),
    topWall w = Some top -> bottomWall w = Some bottom ->
    Spline.points top <> [] -> Spline.points bottom <> [] ->
    exists strokes w',
      animateShocks w now = Some (strokes, w')
      /\ Forall (fun s => 0 < alpha (strokeStyle s)) strokes
      /\ (Forall (fun kv => Forall (fun e => timestamp e <= now) (snd kv))
                 (shockPoints w) ->
          Forall (fun s => alpha (strokeStyle s) <= 1) strokes).
Proof.
  intros w now top bottom Ht Hb Pt Pb.
  destruct (animateShocks_spec w now top bottom Ht Hb Pt Pb)
    as [strokes [w' [E [Hsp Hmap]]]].
  exists strokes, w'. split; [exact E|].
  assert (Hsrc : forall s, In s strokes ->
            exists k ts, In (k, ts) (pruneShocks now (shockPoints w))
                         /\ strokeStyle s = shockStyle now ts).
  { intros s Hs.
    apply (in_map (fun s => (stroke_x s, strokeStyle s))) in Hs.
    rewrite Hmap in Hs. apply in_map_iff in Hs.
    destruct Hs as [[k ts] [Heq Hin]]. apply filter_In in Hin.
    exists k, ts. split; [tauto|]. simpl in Heq. congruence. }
  split.
  - apply Forall_forall. intros s Hs.
    destruct (Hsrc s Hs) as [k [ts [Hin ->]]].
    apply (proj1 (pruneShocks_fresh_iff now (shockPoints w))) in Hin.
    destruct Hin as [_ [e [He Hfresh]]].
    rewrite alpha_shockStyle.
    apply (shockOpacity_positive now ts e); [|exact Hfresh].
    now apply last_error_In.
  - intros Hpast. apply Forall_forall. intros s Hs.
    destruct (Hsrc s Hs) as [k [ts [Hin ->]]].
    apply (proj1 (pruneShocks_fresh_iff now (shockPoints w))) in Hin.
    destruct Hin as [Hin [e [He _]]].
    rewrite alpha_shockStyle. apply shockOpacity_le_1.
    + intros ->. discriminate.
    + rewrite Forall_forall in Hpast. apply (Hpast _ Hin).
Qed.

Lemma animateShocks_opacity_witness :
  exists strokes w',
    animateShocks
      (test_world test_globals (test_wall true 100 100)
                  (test_wall false 400 400) [(0, mixed_bucket)]) 3
    = Some (strokes, w')
    /\ Forall (fun s => 0 < alpha (strokeStyle s)) strokes
    /\ (Forall (fun kv => Forall (fun e => timestamp e <= 3) (snd kv))
               [(0, mixed_bucket)] ->
        Forall (fun s => alpha (strokeStyle s) <= 1) strokes).
Proof.
  apply (animateShocks_opacity
           (test_world test_globals (test_wall true 100 100)
                       (test_wall false 400 400) [(0, mixed_bucket)])
           3 (test_wall true 100 100) (test_wall false 400 400)
           eq_refl eq_refl).
  - simpl; discriminate.
  - simpl; discriminate.
Defined.

(** ** Chronological buckets *)

Lemma chronological_snoc ts e :
  chronological ts -> Forall (fun a => timestamp a <= timestamp e) ts ->
  chronological (ts ++ [e]).
Proof.
  unfold chronological. induction 1 as [|a ts Hs IH Ha]; intros Hall; simpl.
  - constructor; constructor.
  - inversion Hall; subst. constructor; [now apply IH|].
    apply Forall_app; split; [exact Ha | constructor; [assumption | constructor]].
Qed.

Lemma chronological_filter f ts :
  chronological ts -> chronological (filter f ts).
Proof.
  unfold chronological. induction 1 as [|a ts Hs IH Ha]; simpl.
  - constructor.
  - destruct (f a); [|exact IH]. constructor; [exact IH|].
    apply Forall_forall. intros b Hb. apply filter_In in Hb.
    rewrite Forall_forall in Ha. now apply Ha.
Qed.

Lemma chronological_skipn n ts :
  chronological ts -> chronological (skipn n ts).
Proof.
  unfold chronological. revert ts.
  induction n as [|n IH]; intros ts H; [exact H|].
  destruct ts as [|a ts]; [constructor|]. simpl. apply IH.
  now inversion H.
Qed.

Lemma chronological_last ts e :
  chronological ts -> last_error ts = Some e ->
  Forall (fun a => timestamp a <= timestamp e) ts.
Proof.
  unfold chronological. induction 1 as [|a ts Hs IH Ha]; [discriminate|].
  destruct ts as [|b ts].
  - simpl. intros E; injection E as <-. constructor; [lra | constructor].
  - intros E. change (last_error (b :: ts) = Some e) in E.
    constructor; [|now apply IH].
    rewrite Forall_forall in Ha. apply Ha. now apply last_error_In.
Qed.

(** X13.  When the time stamp of a pushed transition is not earlier than
    those already in its bucket, as with a clock that never runs
    backwards, chronological buckets stay chronological. *)
Theorem recordTransition_chronological :
  forall (g : Globals) (m : ShockMap) (px newMach t_push now : R),
    Forall (fun kv => chronological (snd kv)) m ->
    Forall (fun e => timestamp e <= t_push) (bucket m (roundedX g px)) ->
    Forall (fun kv => chronological (snd kv))
           (recordTransition g m px newMach t_push now).
Proof.
  intros g m px newMach t_push now Hm Hold.
  rewrite recordTransition_eq.
  apply (Map_set_Forall chronological); [exact Hm|].
  unfold slice_last. apply chronological_skipn, chronological_filter.
  apply chronological_snoc; [|exact Hold].
  unfold bucket. clear Hold.
  induction Hm as [|[k0 v0] m H0 Hm IH]; simpl.
  - constructor.
  - destruct (Reqb k0 (roundedX g px)); auto.
Qed.

Lemma recordTransition_chronological_witness :
  Forall (fun kv => chronological (snd kv))
         (recordTransition test_globals [(0, [stale_event])] 0 0.5 200 200).
Proof.
  apply (recordTransition_chronological
           test_globals [(0, [stale_event])] 0 0.5 200 200).
  - constructor; [|constructor]. simpl.
    constructor; constructor.
  - rewrite roundedX_test_0. unfold bucket; simpl. rewrite Reqb_refl.
    constructor; [simpl; lra | constructor].
Defined.

(** X14.  A chronological bucket is deleted by the clean-up loop exactly
    when it is empty or every event in it is at least [SHOCK_LIFETIME]
    old. *)
Theorem expired_chronological :
  forall (now : R) (ts : list ShockEvent),
    chronological ts ->
    (expired now ts = true
     <-> Forall (fun e => now - timestamp e >= SHOCK_LIFETIME) ts).
Proof.
  intros now ts Hc. unfold expired.
  destruct (last_error ts) as [e|] eqn:E.
  - pose proof (chronological_last ts e Hc E) as Hle.
    split.
    + intros H. apply Rgeb_iff in H.
      eapply Forall_impl; [|exact Hle]. simpl. intros a Ha. lra.
    + intros H. apply Rgeb_true. rewrite Forall_forall in H.
      apply H. now apply last_error_In.
  - destruct ts as [|a ts].
    + split; [constructor | reflexivity].
    + exfalso. destruct (last_error_some (a :: ts)) as [b Hb];
        [discriminate | congruence].
Qed.

Lemma expired_chronological_witness :
  expired 350 [stale_event; fresh_event] = true
  <-> Forall (fun e => 350 - timestamp e >= SHOCK_LIFETIME)
             [stale_event; fresh_event].
Proof.
  apply (expired_chronological 350 [stale_event; fresh_event]).
  unfold chronological. constructor; [constructor; constructor|].
  constructor; [simpl; lra | constructor].
Defined.

(** ** A tick, in full *)

(** What a tick computes between two well-formed walls. *)
Lemma update_with_walls w p t_push now top bottom :
  topWall w = Some top -> bottomWall w = Some bottom ->
  wf_wall top -> wf_wall bottom ->
  let g := globals w in
  exists topY hU hD top3 bottom3,
    Spline.getYAtX g top (Particle.x p) = Some (topY, ready g top)
    /\ Spline.getYAtX g bottom (Particle.x p) = Some (hU, ready g bottom)
    /\ Spline.getYAtX g (ready g bottom)
         (Particle.x p + metersToPixels g 0.1) = Some (hD, ready g bottom)
    /\ Spline.recordVelocity (ready g top) (Particle.x p)
         (nextVelocity g hU hD (Particle.speedX p)) = Some top3
    /\ Spline.recordVelocity (ready g bottom) (Particle.x p)
         (nextVelocity g hU hD (Particle.speedX p)) = Some bottom3
    /\ Particle.update w p t_push now
       = Some
           (let v := nextVelocity g hU hD (Particle.speedX p) in
            {| Particle.size := Particle.size p;
               Particle.x :=
                 Particle.x p + metersToPixels g (v * (1 / 60 * timeScale g));
               Particle.y :=
                 match Particle.normalizedY p with
                 | Some n => Some (topY + n * (hU - topY))
                 | None => None
                 end;
               Particle.normalizedY := Particle.normalizedY p;
               Particle.speedX := v;
               Particle.opacity := Particle.opacity p;
               Particle.color :=
                 if Rltb 1 (v / soundSpeed g)
                 then rgba 255 50 50 (Particle.opacity p)
                 else rgba 255 255 255 (Particle.opacity p) |},
            let v := nextVelocity g hU hD (Particle.speedX p) in
            {| globals := g;
               topWall := Some top3;
               bottomWall := Some bottom3;
               shockPoints :=
                 if crossesMach1 g (Particle.speedX p) v
                 then recordTransition g (shockPoints w) (Particle.x p)
                        (v / soundSpeed g) t_push now
                 else shockPoints w |}).
Proof.
  intros Ht Hb Wt Wb g.
  destruct (getYAtX_total g top (Particle.x p) (proj1 Wt)) as [topY HT].
  destruct (getYAtX_total g bottom (Particle.x p) (proj1 Wb)) as [hU HU].
  assert (Wb' : wf_wall (ready g bottom)) by now apply ready_wf.
  assert (Wt' : wf_wall (ready g top)) by now apply ready_wf.
  destruct (getYAtX_total g (ready g bottom)
              (Particle.x p + metersToPixels g 0.1) (proj1 Wb'))
    as [hD HD].
  rewrite ready_ready in HD.
  destruct (recordVelocity_total (ready g top) (Particle.x p)
              (nextVelocity g hU hD (Particle.speedX p)) Wt')
    as [top3 [R1 _]].
  destruct (recordVelocity_total (ready g bottom) (Particle.x p)
              (nextVelocity g hU hD (Particle.speedX p)) Wb')
    as [bottom3 [R2 _]].
  exists topY, hU, hD, top3, bottom3.
  repeat (split; [assumption|]).
  unfold Particle.update. fold g. rewrite Ht, Hb, HT, HU.
  erewrite calculateVelocity_eq; [|reflexivity|simpl; exact HD].
  cbn [globals topWall bottomWall with_bottomWall shockPoints].
  fold (nextVelocity g hU hD (Particle.speedX p)).
  rewrite R1, R2. reflexivity.
Qed.

Lemma ready_bounded g s : buffers_bounded s -> buffers_bounded (ready g s).
Proof. unfold buffers_bounded. now rewrite ready_measurements. Qed.

Lemma recordTransition_inv g m px newMach t_push now :
  typed m -> NoDup (map fst m) ->
  Forall (fun kv => (length (snd kv) <= SHOCK_WINDOW)%nat) m ->
  typed (recordTransition g m px newMach t_push now)
  /\ NoDup (map fst (recordTransition g m px newMach t_push now))
  /\ Forall (fun kv => (length (snd kv) <= SHOCK_WINDOW)%nat)
            (recordTransition g m px newMach t_push now).
Proof.
  intros Ht Hn Hl. split; [now apply recordTransition_typed|].
  rewrite recordTransition_eq. split; [now apply Map_set_NoDup|].
  apply (Map_set_Forall (fun l => (length l <= SHOCK_WINDOW)%nat));
    [exact Hl | apply slice_last_length].
Qed.

(** X15.  In a well-formed world a tick never throws, and it leaves the
    world well-formed: both walls keep a control point and one buffer of
    at most 50 samples per control point, the shock map keeps distinct
    keys, event types 1 and -1 and at most 100 events per bucket; the
    globals are not written. *)
Theorem update_preserves_world :
  forall (w : World) (p : Particle.t) (t_push now : R),
    world_inv w ->
    exists p' w',
      Particle.update w p t_push now = Some (p', w')
      /\ world_inv w'
      /\ globals w' = globals w.
Proof.
  intros w p t_push now
         [top [bottom [Ht [Hb [Wt [Wb [Bt [Bb [Hty [Hnd Hlen]]]]]]]]]].
  destruct (update_with_walls w p t_push now top bottom Ht Hb Wt Wb)
    as [topY [hU [hD [top3 [bottom3 [_ [_ [_ [R1 [R2 E]]]]]]]]]].
  eexists; eexists. split; [exact E|]. cbv zeta. split; [|reflexivity].
  destruct (recordVelocity_bound_step (ready (globals w) top) (Particle.x p)
              (nextVelocity (globals w) hU hD (Particle.speedX p))
              (ready_wf _ _ Wt) (ready_bounded _ _ Bt))
    as [s1 [E1 [W1 [B1 _]]]].
  destruct (recordVelocity_bound_step (ready (globals w) bottom)
              (Particle.x p)
              (nextVelocity (globals w) hU hD (Particle.speedX p))
              (ready_wf _ _ Wb) (ready_bounded _ _ Bb))
    as [s2 [E2 [W2 [B2 _]]]].
  rewrite R1 in E1. injection E1 as <-.
  rewrite R2 in E2. injection E2 as <-.
  exists top3, bottom3. simpl.
  repeat (split; [first [reflexivity | assumption]|]).
  destruct (crossesMach1 _ _ _); [|auto].
  now apply recordTransition_inv.
Qed.

Lemma test_world_inv top bottom h0 h1 h2 h3 :
  world_inv (test_world test_globals (test_wall top h0 h1)
                        (test_wall bottom h2 h3) []).
Proof.
  exists (test_wall top h0 h1), (test_wall bottom h2 h3).
  split; [reflexivity|]. split; [reflexivity|].
  split; [apply test_wall_wf|]. split; [apply test_wall_wf|].
  split; [unfold buffers_bounded; simpl; repeat constructor; simpl; lia|].
  split; [unfold buffers_bounded; simpl; repeat constructor; simpl; lia|].
  split; [constructor|]. split; constructor.
Qed.

Lemma update_preserves_world_witness :
  exists p' w',
    Particle.update
      (test_world test_globals (test_wall true 100 100)
                  (test_wall false 400 500) [])
      (Particle.constructor test_globals 0.5 0.5 0.5) 0 0
    = Some (p', w')
    /\ world_inv w'
    /\ globals w' = test_globals.
Proof.
  apply (update_preserves_world
           (test_world test_globals (test_wall true 100 100)
                       (test_wall false 400 500) [])
           (Particle.constructor test_globals 0.5 0.5 0.5) 0 0).
  apply test_world_inv.
Defined.

(** X16.  A tick between two well-formed walls moves the particle by the
    velocity it has just computed (not the one it had), over 1/60 s scaled
    by [timeScale]; it colours the particle red exactly when the new Mach
    number is above 1, keeps size and opacity, and places the particle
    between the two wall heights at its old position when its
    [normalizedY] lies in [0, 1]. *)
Theorem update_motion :
  forall (w : World) (p : Particle.t) (t_push now : R)
         (top bottom : Spline.t),
    topWall w = Some top -> bottomWall w = Some bottom ->
    wf_wall top -> wf_wall bottom ->
    let g := globals w in
    exists p' w' topY bottomY top' bottom',
      Particle.update w p t_push now = Some (p', w')
      /\ Spline.getYAtX g top (Particle.x p) = Some (topY, top')
      /\ Spline.getYAtX g bottom (Particle.x p) = Some (bottomY, bottom')
      /\ Particle.x p'
         = Particle.x p
           + metersToPixels g (Particle.speedX p' * (1 / 60 * timeScale g))
      /\ Particle.color p'
         = (if Rlt_dec 1 (Particle.speedX p' / soundSpeed g)
            then rgba 255 50 50 (Particle.opacity p)
            else rgba 255 255 255 (Particle.opacity p))
      /\ Particle.size p' = Particle.size p
      /\ Particle.opacity p' = Particle.opacity p
      /\ (forall n, Particle.normalizedY p = Some n -> 0 <= n <= 1 ->
                    exists yv, Particle.y p' = Some yv
                               /\ Rmin topY bottomY <= yv <= Rmax topY bottomY).
Proof.
  intros w p t_push now top bottom Ht Hb Wt Wb g.
  destruct (update_with_walls w p t_push now top bottom Ht Hb Wt Wb)
    as [topY [hU [hD [top3 [bottom3 [HT [HU [_ [_ [_ E]]]]]]]]]].
  fold g in HT, HU, E.
  eexists; eexists; exists topY, hU; eexists; eexists.
  split; [exact E|]. split; [exact HT|]. split; [exact HU|].
  cbv zeta. simpl.
  split; [reflexivity|].
  split; [unfold Rltb; destruct (Rlt_dec _ _); reflexivity|].
  split; [reflexivity|]. split; [reflexivity|].
  intros n Hn Hrange. rewrite Hn. eexists; split; [reflexivity|].
  unfold Rmin, Rmax. destruct (Rle_dec topY hU); split; nra.
Qed.

Lemma update_motion_witness :
  exists p' w' topY bottomY top' bottom',
    Particle.update
      (test_world test_globals (test_wall true 100 100)
                  (test_wall false 400 500) [])
      (Particle.constructor test_globals 0.5 0.5 0.5) 0 0
    = Some (p', w')
    /\ Spline.getYAtX test_globals (test_wall true 100 100) 0
       = Some (topY, top')
    /\ Spline.getYAtX test_globals (test_wall false 400 500) 0
       = Some (bottomY, bottom')
    /\ Particle.x p'
       = 0 + metersToPixels test_globals
               (Particle.speedX p' * (1 / 60 * 0.01))
    /\ Particle.color p'
       = (if Rlt_dec 1 (Particle.speedX p' / 343)
          then rgba 255 50 50 (0.5 * 0.5 + 0.5)
          else rgba 255 255 255 (0.5 * 0.5 + 0.5))
    /\ Particle.size p' = 0.5 * 2 + 1
    /\ Particle.opacity p' = 0.5 * 0.5 + 0.5
    /\ (forall n, Some 0.5 = Some n -> 0 <= n <= 1 ->
                  exists yv, Particle.y p' = Some yv
                             /\ Rmin topY bottomY <= yv <= Rmax topY bottomY).
Proof.
  apply (update_motion
           (test_world test_globals (test_wall true 100 100)
                       (test_wall false 400 500) [])
           (Particle.constructor test_globals 0.5 0.5 0.5) 0 0
           (test_wall true 100 100) (test_wall false 400 500)
           eq_refl eq_refl (test_wall_wf _ _ _) (test_wall_wf _ _ _)).
Defined.

(** ** Transitions caused by the near-sonic guard *)

Lemma recordTransition_In g m px newMach t_push now :
  now - t_push < SHOCK_LIFETIME ->
  In {| type := if Rgeb newMach 1 then 1%Z else (-1)%Z;
        timestamp := t_push |}
     (bucket (recordTransition g m px newMach t_push now) (roundedX g px)).
Proof.
  intros Hfresh. rewrite recordTransition_eq. unfold bucket at 1.
  rewrite Map_get_set_same.
  rewrite filter_snoc by (apply Rltb_true; exact Hfresh).
  apply slice_last_snoc. unfold SHOCK_WINDOW; lia.
Qed.

(** X17.  A supersonic particle inside the near-sonic band, with a
    subsonic injection velocity configured, is reset to the injection
    velocity by the tick, which pushes a subsonic-entry transition at the
    particle's position; the event is in its bucket when the clock read
    back is within the lifetime. *)
Theorem update_reset_pushes_transition :
  forall (w : World) (p : Particle.t) (t_push now : R)
         (top bottom : Spline.t),
    topWall w = Some top -> bottomWall w = Some bottom ->
    wf_wall top -> wf_wall bottom ->
    let g := globals w in
    let M := Particle.speedX p / soundSpeed g in
    M >= 1 -> Rabs (1 - M * M) < 0.01 ->
    initialVelocity g / soundSpeed g < 1 ->
    exists p' w',
      Particle.update w p t_push now = Some (p', w')
      /\ Particle.speedX p' = initialVelocity g
      /\ shockPoints w'
         = recordTransition g (shockPoints w) (Particle.x p)
                            (initialVelocity g / soundSpeed g) t_push now
      /\ (now - t_push < SHOCK_LIFETIME ->
          In {| type := (-1)%Z; timestamp := t_push |}
             (bucket (shockPoints w') (roundedX g (Particle.x p)))).
Proof.
  intros w p t_push now top bottom Ht Hb Wt Wb g M HM Hband Hinj.
  destruct (update_with_walls w p t_push now top bottom Ht Hb Wt Wb)
    as [topY [hU [hD [top3 [bottom3 [_ [_ [_ [_ [_ E]]]]]]]]]].
  fold g in E.
  assert (Ev : nextVelocity g hU hD (Particle.speedX p) = initialVelocity g).
  { unfold nextVelocity. fold M. now rewrite Rltb_true. }
  rewrite Ev in E. cbv zeta in E.
  assert (Ec : crossesMach1 g (Particle.speedX p) (initialVelocity g) = true).
  { unfold crossesMach1. fold M.
    rewrite (Rgeb_true M 1) by exact HM.
    rewrite (Rltb_true (initialVelocity g / soundSpeed g) 1) by exact Hinj.
    now rewrite orb_true_r. }
  rewrite Ec in E.
  eexists; eexists. split; [exact E|]. cbv zeta. simpl.
  split; [reflexivity|]. split; [reflexivity|].
  intros Hfresh.
  pose proof (recordTransition_In g (shockPoints w) (Particle.x p)
                (initialVelocity g / soundSpeed g) t_push now Hfresh) as Hin.
  rewrite Rgeb_false in Hin by lra. exact Hin.
Qed.

Lemma update_reset_pushes_transition_witness :
  let p := {| Particle.size := 1; Particle.x := 0; Particle.y := None;
              Particle.normalizedY := Some 0.5; Particle.speedX := 344;
              Particle.opacity := 1; Particle.color := rgba 255 50 50 1 |} in
  exists p' w',
    Particle.update
      (test_world test_globals (test_wall true 100 100)
                  (test_wall false 400 500) []) p 0 0
    = Some (p', w')
    /\ Particle.speedX p' = 100
    /\ shockPoints w'
       = recordTransition test_globals [] 0 (100 / 343) 0 0
    /\ (0 - 0 < SHOCK_LIFETIME ->
        In {| type := (-1)%Z; timestamp := 0 |}
           (bucket (shockPoints w') (roundedX test_globals 0))).
Proof.
  intros p.
  apply (update_reset_pushes_transition
           (test_world test_globals (test_wall true 100 100)
                       (test_wall false 400 500) [])
           p 0 0 (test_wall true 100 100) (test_wall false 400 500)
           eq_refl eq_refl (test_wall_wf _ _ _) (test_wall_wf _ _ _)).
  - simpl. lra.
  - simpl. rcompare.
  - simpl. lra.
Defined.

(** ** The default layout of a wall *)

Lemma defaultLayout_ascending cw b : 0 <= cw -> ascending (defaultLayout cw b).
Proof.
  intros H. unfold ascending, defaultLayout.
  repeat (apply Sorted_cons; [|first [apply HdRel_nil | apply HdRel_cons; simpl; lra]]).
  apply Sorted_nil.
Qed.

Lemma initializePoints_points g h s :
  map (fun i =>
         {| Spline.x := (canvas_width g / (INR 5 - 1)) * INR i;
            Spline.y := (if Spline.isTop s then h * 0.2 else h * 0.8)
                        + sin (INR i * PI / 2) * 20 |})
      (seq 0 5)
  = defaultLayout (canvas_width g)
                  (if Spline.isTop s then h * 0.2 else h * 0.8).
Proof.
  set (b := if Spline.isTop s then h * 0.2 else h * 0.8).
  unfold defaultLayout. cbn [map seq].
  replace (INR 0 * PI / 2) with 0 by (simpl; field).
  replace (INR 1 * PI / 2) with (PI / 2) by (simpl; field).
  replace (INR 2 * PI / 2) with PI by (simpl; field).
  replace (INR 3 * PI / 2) with (3 * (PI / 2)) by (simpl; field).
  replace (INR 4 * PI / 2) with (2 * PI) by (simpl; field).
  rewrite sin_0, sin_PI2, sin_PI, sin_3PI2, sin_2PI.
  repeat (f_equal; try (simpl; field)).
Qed.

Lemma initializePoints_default :
  forall (g : Globals) (canvas_height : R) (s : Spline.t),
    0 <= canvas_width g ->
    let b := if Spline.isTop s then canvas_height * 0.2
             else canvas_height * 0.8 in
    let s' := Spline.initializePoints g canvas_height s in
    Spline.points s' = defaultLayout (canvas_width g) b
    /\ Spline.velocityMeasurements s' = [ []; []; []; []; [] ]
    /\ Spline.isTop s' = Spline.isTop s
    /\ Spline.splineCoeffs s'
       = Some (numeric_spline g
                 (map Spline.x (defaultLayout (canvas_width g) b))
                 (map Spline.y (defaultLayout (canvas_width g) b))).
Proof.
  intros g h s Hw b s'. unfold s', Spline.initializePoints.
  cbv zeta. rewrite initializePoints_points. fold b.
  unfold Spline.initializeSpline. cbn [Spline.points Spline.isTop
    Spline.velocityMeasurements Spline.splineCoeffs].
  rewrite (sort_ascending _ (defaultLayout_ascending _ b Hw)).
  repeat split; reflexivity.
Qed.

(** X18.  On a canvas of non-negative width, [initializePoints] gives a
    wall five control points at 0, 1/4, 1/2, 3/4 and all of the canvas
    width, at heights base, base + 20, base, base - 20, base, where base is
    0.2 (top wall) or 0.8 (bottom wall) of the canvas height; it empties
    the five measurement buffers and computes the interpolant of these
    points. *)
Theorem initializePoints_layout :
  forall (g : Globals) (canvas_height : R) (s : Spline.t),
    0 <= canvas_width g ->
    let b := if Spline.isTop s then canvas_height * 0.2
             else canvas_height * 0.8 in
    let s' := Spline.initializePoints g canvas_height s in
    Spline.points s' = defaultLayout (canvas_width g) b
    /\ Spline.velocityMeasurements s' = [ []; []; []; []; [] ]
    /\ Spline.isTop s' = Spline.isTop s
    /\ Spline.splineCoeffs s'
       = Some (numeric_spline g
                 (map Spline.x (defaultLayout (canvas_width g) b))
                 (map Spline.y (defaultLayout (canvas_width g) b))).
Proof. exact initializePoints_default. Qed.

Lemma initializePoints_layout_witness :
  let s' := Spline.initializePoints test_globals 600
              (test_wall false 400 500) in
  Spline.points s' = defaultLayout 1000 (600 * 0.8)
  /\ Spline.velocityMeasurements s' = [ []; []; []; []; [] ]
  /\ Spline.isTop s' = false
  /\ Spline.splineCoeffs s'
     = Some (numeric_spline test_globals
               (map Spline.x (defaultLayout 1000 (600 * 0.8)))
               (map Spline.y (defaultLayout 1000 (600 * 0.8)))).
Proof.
  apply (initializePoints_layout test_globals 600 (test_wall false 400 500)).
  simpl. lra.
Defined.

(** X19.  A wall fresh from the constructor has five control points in
    ascending order and five empty buffers, but no interpolant: the first
    [getYAtX] computes it again, leaves the control points as they are,
    and from then on the wall is well-formed with bounded buffers. *)
Theorem constructor_then_query :
  forall (g : Globals) (canvas_height : R) (top : bool) (px : R),
    let s := Spline.constructor g canvas_height top in
    Spline.splineCoeffs s = None
    /\ length (Spline.points s) = 5%nat
    /\ ascending (Spline.points s)
    /\ wf_wall s /\ buffers_bounded s
    /\ exists v s',
        Spline.getYAtX g s px = Some (v, s')
        /\ Spline.points s' = Spline.points s
        /\ Spline.splineCoeffs s'
           = Some (numeric_spline g (map Spline.x (Spline.points s))
                                  (map Spline.y (Spline.points s)))
        /\ Spline.velocityMeasurements s' = [ []; []; []; []; [] ].
Proof.
  intros g h top px s.
  assert (Hlen : length (Spline.points s) = 5%nat).
  { unfold s, Spline.constructor, Spline.initializePoints,
      Spline.initializeSpline. cbn [Spline.points].
    now rewrite sort_length, length_map, length_seq. }
  assert (Hasc : ascending (Spline.points s)).
  { unfold s, Spline.constructor, Spline.initializePoints,
      Spline.initializeSpline. cbn [Spline.points].
    apply sort_is_ascending. }
  assert (Hvm : Spline.velocityMeasurements s = [ []; []; []; []; [] ]).
  { unfold s, Spline.constructor. cbn [Spline.velocityMeasurements].
    destruct (Spline.points _) as [|a [|b [|c [|d [|e [|f l]]]]]];
      try discriminate Hlen. reflexivity. }
  assert (Hwf : wf_wall s).
  { split; [intros E; rewrite E in Hlen; discriminate|].
    now rewrite Hvm, Hlen. }
  split; [reflexivity|]. split; [exact Hlen|]. split; [exact Hasc|].
  split; [exact Hwf|]. split.
  { unfold buffers_bounded. rewrite Hvm. repeat constructor; simpl; lia. }
  destruct (getYAtX_total g s px (proj1 Hwf)) as [v Hv].
  exists v, (ready g s). split; [exact Hv|].
  split; [apply ready_points; now right|]. split.
  - unfold ready. change (Spline.splineCoeffs s) with (@None (R -> R)).
    unfold Spline.initializeSpline. cbn [Spline.splineCoeffs].
    now rewrite (sort_ascending _ Hasc).
  - now rewrite ready_measurements.
Qed.

(** ** The sampled outline of a wall *)

Lemma nth_error_seq_value len :
  forall start i a, nth_error (seq start len) i = Some a -> a = (start + i)%nat.
Proof.
  induction len as [|len IH]; intros start i a; simpl.
  - destruct i; discriminate.
  - destruct i as [|i]; simpl.
    + intros E; injection E as <-. lia.
    + intros E. apply IH in E. lia.
Qed.

(** X20.  On a wall with a control point, [getSplinePoints] returns 200
    samples; sample [i] lies at [xStart + i * dx] with [dx = (xEnd -
    xStart) / 199], as the code computes it between the first and the last
    control point, and carries the interpolant's height there.  The first
    sample is at the first control point's downstream coordinate, and
    every sample strictly between the first and the last control point
    has the height [getYAtX] reports there, so the outline drawn is the
    wall the particles see. *)
Theorem getSplinePoints_outline :
  forall (g : Globals) (s : Spline.t),
    Spline.points s <> [] ->
    exists samples p0 pn coeffs first_sample,
      Spline.getSplinePoints g s = Some (samples, ready g s)
      /\ hd_error (Spline.points (ready g s)) = Some p0
      /\ last_error (Spline.points (ready g s)) = Some pn
      /\ Spline.splineCoeffs (ready g s) = Some coeffs
      /\ length samples = 200%nat
      /\ (forall i q,
             nth_error samples i = Some q ->
             Spline.x q
             = Spline.x p0
               + INR i * ((Spline.x pn - Spline.x p0) / (INR 200 - 1))
             /\ Spline.y q = coeffs (Spline.x q))
      /\ hd_error samples = Some first_sample
      /\ Spline.x first_sample = Spline.x p0
      /\ (forall q, In q samples ->
                    Spline.x p0 < Spline.x q < Spline.x pn ->
                    Spline.getYAtX g (ready g s) (Spline.x q)
                    = Some (Spline.y q, ready g s)).
Proof.
  intros g s Hne.
  pose proof (ready_nonempty g s Hne) as Hr.
  destruct (last_error_some _ Hr) as [pn Hpn].
  unfold Spline.getSplinePoints. fold (ready g s).
  unfold Spline.getYAtX. fold (ready g (ready g s)). rewrite ready_ready.
  destruct (Spline.points (ready g s)) as [|p0 l] eqn:Ep; [congruence|].
  rewrite Hpn.
  destruct (Spline.splineCoeffs (ready g s)) as [coeffs|] eqn:Ec;
    [|now apply ready_coeffs in Ec].
  cbv zeta.
  set (dx := (Spline.x pn - Spline.x p0) / (INR 200 - 1)).
  set (F := fun i : nat =>
              {| Spline.x := Spline.x p0 + INR i * dx;
                 Spline.y := coeffs (Spline.x p0 + INR i * dx) |}).
  exists (map F (seq 0 200)), p0, pn, coeffs, (F 0%nat).
  split; [reflexivity|]. split; [reflexivity|]. split; [reflexivity|].
  split; [reflexivity|].
  split; [now rewrite length_map, length_seq|].
  split.
  { intros i q Hq. rewrite nth_error_map in Hq.
    destruct (nth_error (seq 0 200) i) as [a|] eqn:Ea; [|discriminate].
    apply nth_error_seq_value in Ea. simpl in Ea. subst a.
    injection Hq as <-. unfold F. cbn [Spline.x Spline.y]. split; reflexivity. }
  split; [reflexivity|].
  split; [unfold F; cbn [Spline.x INR]; ring|].
  intros q Hq Hrange. apply in_map_iff in Hq. destruct Hq as [i [<- _]].
  unfold F in *. cbn [Spline.x Spline.y] in *.
  rewrite Rleb_false by lra. now rewrite Rgeb_false by lra.
Qed.

Lemma getSplinePoints_outline_witness :
  exists samples p0 pn coeffs first_sample,
    Spline.getSplinePoints test_globals (test_wall false 400 500)
    = Some (samples, ready test_globals (test_wall false 400 500))
    /\ hd_error (Spline.points (ready test_globals (test_wall false 400 500)))
       = Some p0
    /\ last_error
         (Spline.points (ready test_globals (test_wall false 400 500)))
       = Some pn
    /\ Spline.splineCoeffs (ready test_globals (test_wall false 400 500))
       = Some coeffs
    /\ length samples = 200%nat
    /\ (forall i q,
           nth_error samples i = Some q ->
           Spline.x q
           = Spline.x p0
             + INR i * ((Spline.x pn - Spline.x p0) / (INR 200 - 1))
           /\ Spline.y q = coeffs (Spline.x q))
    /\ hd_error samples = Some first_sample
    /\ Spline.x first_sample = Spline.x p0
    /\ (forall q, In q samples ->
                  Spline.x p0 < Spline.x q < Spline.x pn ->
                  Spline.getYAtX test_globals
                    (ready test_globals (test_wall false 400 500))
                    (Spline.x q)
                  = Some (Spline.y q,
                          ready test_globals (test_wall false 400 500))).
Proof.
  apply (getSplinePoints_outline test_globals (test_wall false 400 500)).
  simpl; discriminate.
Defined.

(** ** Grabbing a control point *)

Lemma grabbed_iff mouseX mouseY p :
  Rltb ((Spline.x p - mouseX) * (Spline.x p - mouseX)
        + (Spline.y p - mouseY) * (Spline.y p - mouseY)) 100 = true
  <-> grabbed mouseX mouseY p.
Proof. apply Rltb_iff. Qed.

Lemma handleMouseDown_loop_none mouseX mouseY pts :
  Forall (fun p => ~ grabbed mouseX mouseY p) pts ->
  forall i d, handleMouseDown_loop pts i mouseX mouseY d = d.
Proof.
  induction 1 as [|p pts Hp Hpts IH]; intros i d; simpl; [reflexivity|].
  rewrite Rltb_false by exact Hp. apply IH.
Qed.

Lemma handleMouseDown_loop_last mouseX mouseY post p :
  grabbed mouseX mouseY p ->
  Forall (fun q => ~ grabbed mouseX mouseY q) post ->
  forall pre i d,
    handleMouseDown_loop (pre ++ p :: post) i mouseX mouseY d
    = {| dragging := true;
         dragPointIndex := Z.of_nat (i + length pre) |}.
Proof.
  intros Hp Hpost. induction pre as [|q pre IH]; intros i d.
  - simpl. rewrite Rltb_true by exact Hp.
    rewrite handleMouseDown_loop_none by exact Hpost.
    now rewrite Nat.add_0_r.
  - simpl. rewrite IH. do 2 f_equal. lia.
Qed.

(** X21.  [handleMouseDown] starts a drag exactly when some control point
    lies less than 10 away from the mouse: with none, the drag state is
    left as it was; otherwise the wall is dragging and the point grabbed is
    the one of highest index among those in reach. *)
Theorem handleMouseDown_grabs_last :
  forall (s : Spline.t) (d : Drag) (mouseX mouseY : R),
    (Forall (fun p => ~ grabbed mouseX mouseY p) (Spline.points s) ->
     handleMouseDown s d mouseX mouseY = d)
    /\ (forall i p,
           nth_error (Spline.points s) i = Some p ->
           grabbed mouseX mouseY p ->
           (forall j q, (i < j)%nat ->
                        nth_error (Spline.points s) j = Some q ->
                        ~ grabbed mouseX mouseY q) ->
           handleMouseDown s d mouseX mouseY
           = {| dragging := true; dragPointIndex := Z.of_nat i |}).
Proof.
  intros s d mouseX mouseY. unfold handleMouseDown. split.
  - intros H. now apply handleMouseDown_loop_none.
  - intros i p Hn Hp Hlater.
    destruct (nth_error_split _ _ Hn) as [pre [post [E Hlen]]].
    rewrite E. rewrite (handleMouseDown_loop_last mouseX mouseY post p Hp).
    + now rewrite Hlen.
    + apply Forall_forall. intros q Hq.
      apply In_nth_error in Hq. destruct Hq as [k Hk].
      apply (Hlater (S (i + k)) q); [lia|].
      rewrite E, nth_error_app2 by lia.
      replace (S (i + k) - length pre)%nat with (S k) by lia. exact Hk.
Qed.

(** ** Dragging a control point *)

Lemma setPoint_some s i px py :
  (i < length (Spline.points s))%nat ->
  setPoint s (Z.of_nat i) px py
  = Some {| Spline.isTop := Spline.isTop s;
            Spline.points :=
              set_nth i {| Spline.x := px; Spline.y := py |}
                      (Spline.points s);
            Spline.velocityMeasurements := Spline.velocityMeasurements s;
            Spline.splineCoeffs := Spline.splineCoeffs s |}.
Proof.
  intros H. unfold setPoint.
  destruct (Z.of_nat i <? 0)%Z eqn:E; [apply Z.ltb_lt in E; lia|].
  rewrite Nat2Z.id.
  destruct (nth_error_some_lt _ _ H) as [p Hp]. now rewrite Hp.
Qed.

Lemma set_nth_In {A} (l : list A) i v :
  (i < length l)%nat -> In v (set_nth i v l).
Proof.
  intros H. eapply nth_error_In. now apply nth_error_set_nth_eq.
Qed.

(** X22.  Dragging control point [i] of a wall to the mouse position moves
    that point there and the point of the same index on the opposite wall
    to the mirror position [canvas_height - mouseY] at the same downstream
    coordinate; both walls are then re-sorted into ascending order and each
    gets the interpolant [numeric.spline] computes from its re-sorted
    control points.  Nothing else changes: the other control points, the
    measurement buffers, the shock map and the globals stay. *)
Theorem handleMouseMove_mirrors :
  forall (canvas_height : R) (w : World) (this : WallSlot) (d : Drag)
         (mouseX mouseY : R) (self mirror : Spline.t) (i : nat),
    getWall w this = Some self ->
    getWall w (otherSlot this) = Some mirror ->
    Spline.isTop self = match this with Top => true | Bottom => false end ->
    dragging d = true ->
    dragPointIndex d = Z.of_nat i ->
    (i < length (Spline.points self))%nat ->
    (i < length (Spline.points mirror))%nat ->
    exists w' self' mirror',
      handleMouseMove canvas_height w this d mouseX mouseY = Some w'
      /\ getWall w' this = Some self'
      /\ getWall w' (otherSlot this) = Some mirror'
      /\ ascending (Spline.points self')
      /\ ascending (Spline.points mirror')
      /\ Permutation
           (Spline.points self')
           (set_nth i {| Spline.x := mouseX; Spline.y := mouseY |}
                    (Spline.points self))
      /\ Permutation
           (Spline.points mirror')
           (set_nth i {| Spline.x := mouseX;
                         Spline.y := canvas_height - mouseY |}
                    (Spline.points mirror))
      /\ In {| Spline.x := mouseX; Spline.y := mouseY |}
            (Spline.points self')
      /\ In {| Spline.x := mouseX; Spline.y := canvas_height - mouseY |}
            (Spline.points mirror')
      /\ Spline.splineCoeffs self'
         = Some (numeric_spline (globals w)
                   (map Spline.x (Spline.points self'))
                   (map Spline.y (Spline.points self')))
      /\ Spline.splineCoeffs mirror'
         = Some (numeric_spline (globals w)
                   (map Spline.x (Spline.points mirror'))
                   (map Spline.y (Spline.points mirror')))
      /\ Spline.velocityMeasurements self' = Spline.velocityMeasurements self
      /\ Spline.velocityMeasurements mirror'
         = Spline.velocityMeasurements mirror
      /\ shockPoints w' = shockPoints w
      /\ globals w' = globals w.
Proof.
  intros h w this d mouseX mouseY self mirror i Hs Hm Htop Hdrag Hidx
         Hi1 Hi2.
  unfold handleMouseMove. rewrite Hs, Hdrag, Hidx. cbn [negb].
  rewrite (setPoint_some self i mouseX mouseY Hi1).
  cbn [Spline.isTop]. rewrite Htop.
  destruct this; cbn [otherSlot getWall setWall topWall bottomWall
                      globals shockPoints] in *;
    rewrite Hm, (setPoint_some mirror i mouseX (h - mouseY) Hi2);
    cbn [getWall setWall topWall bottomWall globals shockPoints];
    (eexists; eexists; eexists;
     split; [reflexivity|]; split; [reflexivity|]; split; [reflexivity|];
     cbn [Spline.points Spline.initializeSpline Spline.splineCoeffs
          Spline.velocityMeasurements];
     unfold Spline.initializeSpline;
     cbn [Spline.points Spline.splineCoeffs Spline.velocityMeasurements];
     split; [apply sort_is_ascending|];
     split; [apply sort_is_ascending|];
     split; [apply sort_perm|];
     split; [apply sort_perm|];
     split; [apply (Permutation_in _ (Permutation_sym (sort_perm _)));
             now apply set_nth_In|];
     split; [apply (Permutation_in _ (Permutation_sym (sort_perm _)));
             now apply set_nth_In|];
     split; [reflexivity|];
     split; [reflexivity|];
     repeat split; reflexivity).
Qed.

Lemma handleMouseMove_mirrors_witness :
  exists w' self' mirror',
    handleMouseMove 600
      (test_world test_globals (test_wall true 100 100)
                  (test_wall false 400 500) [])
      Top {| dragging := true; dragPointIndex := 1 |} 700 150
    = Some w'
    /\ getWall w' Top = Some self'
    /\ getWall w' Bottom = Some mirror'
    /\ ascending (Spline.points self')
    /\ ascending (Spline.points mirror')
    /\ Permutation
         (Spline.points self')
         (set_nth 1 {| Spline.x := 700; Spline.y := 150 |}
                  (Spline.points (test_wall true 100 100)))
    /\ Permutation
         (Spline.points mirror')
         (set_nth 1 {| Spline.x := 700; Spline.y := 600 - 150 |}
                  (Spline.points (test_wall false 400 500)))
    /\ In {| Spline.x := 700; Spline.y := 150 |} (Spline.points self')
    /\ In {| Spline.x := 700; Spline.y := 600 - 150 |}
          (Spline.points mirror')
    /\ Spline.splineCoeffs self'
       = Some (numeric_spline test_globals
                 (map Spline.x (Spline.points self'))
                 (map Spline.y (Spline.points self')))
    /\ Spline.splineCoeffs mirror'
       = Some (numeric_spline test_globals
                 (map Spline.x (Spline.points mirror'))
                 (map Spline.y (Spline.points mirror')))
    /\ Spline.velocityMeasurements self'
       = Spline.velocityMeasurements (test_wall true 100 100)
    /\ Spline.velocityMeasurements mirror'
       = Spline.velocityMeasurements (test_wall false 400 500)
    /\ shockPoints w' = []
    /\ globals w' = test_globals.
Proof.
  apply (handleMouseMove_mirrors 600
           (test_world test_globals (test_wall true 100 100)
                       (test_wall false 400 500) [])
           Top {| dragging := true; dragPointIndex := 1 |} 700 150
           (test_wall true 100 100) (test_wall false 400 500) 1);
    try reflexivity; simpl; lia.
Defined.

(** ** Resizing the canvas *)

(** X23.  Once the walls exist, resizing the canvas to a non-negative
    width discards both wall shapes and all recorded velocities: each wall
    gets the default layout across the new width, at 0.2 (top) or 0.8
    (bottom) of the new height, with five empty buffers.  The shock map,
    the grouping distance and the flow parameters are kept as they were. *)
Theorem resizeCanvas_resets_walls :
  forall (w : World) (innerWidth innerHeight : R) (top bottom : Spline.t),
    topWall w = Some top -> bottomWall w = Some bottom ->
    0 <= innerWidth ->
    exists w' top' bottom',
      resizeCanvas w innerWidth innerHeight = Some (w', innerHeight)
      /\ canvas_width (globals w') = innerWidth
      /\ topWall w' = Some top' /\ bottomWall w' = Some bottom'
      /\ Spline.points top'
         = defaultLayout innerWidth
             (if Spline.isTop top then innerHeight * 0.2
              else innerHeight * 0.8)
      /\ Spline.points bottom'
         = defaultLayout innerWidth
             (if Spline.isTop bottom then innerHeight * 0.2
              else innerHeight * 0.8)
      /\ Spline.velocityMeasurements top' = [ []; []; []; []; [] ]
      /\ Spline.velocityMeasurements bottom' = [ []; []; []; []; [] ]
      /\ shockPoints w' = shockPoints w
      /\ SHOCK_DISTANCE (globals w') = SHOCK_DISTANCE (globals w)
      /\ soundSpeed (globals w') = soundSpeed (globals w)
      /\ initialVelocity (globals w') = initialVelocity (globals w)
      /\ timeScale (globals w') = timeScale (globals w).
Proof.
  intros w iw ih top bottom Ht Hb Hw.
  unfold resizeCanvas. rewrite Ht, Hb.
  set (g := {| canvas_width := iw;
               SHOCK_DISTANCE := SHOCK_DISTANCE (globals w);
               soundSpeed := soundSpeed (globals w);
               initialVelocity := initialVelocity (globals w);
               timeScale := timeScale (globals w);
               numeric_spline := numeric_spline (globals w) |}).
  destruct (initializePoints_default g ih top Hw) as [P1 [V1 _]].
  destruct (initializePoints_default g ih bottom Hw) as [P2 [V2 _]].
  eexists; eexists; eexists. split; [reflexivity|].
  cbn [globals topWall bottomWall shockPoints].
  split; [reflexivity|]. split; [reflexivity|]. split; [reflexivity|].
  split; [exact P1|]. split; [exact P2|].
  split; [exact V1|]. split; [exact V2|].
  repeat split; reflexivity.
Qed.

Lemma resizeCanvas_resets_walls_witness :
  exists w' top' bottom',
    resizeCanvas
      (test_world test_globals (test_wall true 100 100)
                  (test_wall false 400 500) [(0, mixed_bucket)]) 800 600
    = Some (w', 600)
    /\ canvas_width (globals w') = 800
    /\ topWall w' = Some top' /\ bottomWall w' = Some bottom'
    /\ Spline.points top' = defaultLayout 800 (600 * 0.2)
    /\ Spline.points bottom' = defaultLayout 800 (600 * 0.8)
    /\ Spline.velocityMeasurements top' = [ []; []; []; []; [] ]
    /\ Spline.velocityMeasurements bottom' = [ []; []; []; []; [] ]
    /\ shockPoints w' = [(0, mixed_bucket)]
    /\ SHOCK_DISTANCE (globals w') = 20
    /\ soundSpeed (globals w') = 343
    /\ initialVelocity (globals w') = 100
    /\ timeScale (globals w') = 0.01.
Proof.
  apply (resizeCanvas_resets_walls
           (test_world test_globals (test_wall true 100 100)
                       (test_wall false 400 500) [(0, mixed_bucket)])
           800 600 (test_wall true 100 100) (test_wall false 400 500)
           eq_refl eq_refl).
  lra.
Defined.

(** ** Spawning *)

(** X24.  A frame spawns a particle only when more than
    [SPAWN_INTERVAL / timeScale] has passed since the last spawn, and then
    exactly one, however long the gap was.  The new particle is appended
    at position 0 with the injection velocity; its [normalizedY] is the
    one drawn in the constructor, while size and opacity are those drawn by
    the second [reset], within [1, 3) and [0.5, 1) for random numbers in
    [0, 1). *)
Theorem spawn_one_per_frame :
  forall (g : Globals) (particles : list Particle.t)
         (lastSpawnTime timestamp : R)
         (rnd_size1 rnd_y rnd_opacity1 rnd_size2 rnd_opacity2 : R),
    0 <= rnd_size2 < 1 -> 0 <= rnd_opacity2 < 1 ->
    (timestamp - lastSpawnTime > SPAWN_INTERVAL / timeScale g ->
     exists p,
       spawn g particles lastSpawnTime timestamp
             rnd_size1 rnd_y rnd_opacity1 rnd_size2 rnd_opacity2
       = (particles ++ [p], timestamp)
       /\ Particle.x p = 0
       /\ Particle.speedX p = initialVelocity g
       /\ Particle.normalizedY p = Some rnd_y
       /\ Particle.size p = rnd_size2 * 2 + 1
       /\ 1 <= Particle.size p < 3
       /\ Particle.opacity p = rnd_opacity2 * 0.5 + 0.5
       /\ 0.5 <= Particle.opacity p < 1
       /\ alpha (Particle.color p) = Particle.opacity p)
    /\ (~ timestamp - lastSpawnTime > SPAWN_INTERVAL / timeScale g ->
        spawn g particles lastSpawnTime timestamp
              rnd_size1 rnd_y rnd_opacity1 rnd_size2 rnd_opacity2
        = (particles, lastSpawnTime)).
Proof.
  intros g ps last ts r1 ry r3 r4 r5 Hr4 Hr5. unfold spawn. cbv zeta. split.
  - intros H. rewrite Rltb_true by lra.
    eexists. split; [reflexivity|]. simpl.
    split; [reflexivity|]. split; [reflexivity|]. split; [reflexivity|].
    split; [reflexivity|]. split; [lra|]. split; [reflexivity|].
    split; [lra|]. destruct (Rltb _ _); reflexivity.
  - intros H. now rewrite Rltb_false by lra.
Qed.

Lemma spawn_one_per_frame_witness :
  (16 - 0 > SPAWN_INTERVAL / timeScale test_globals ->
   exists p,
     spawn test_globals [] 0 16 0.1 0.25 0.2 0.3 0.4 = ([] ++ [p], 16)
     /\ Particle.x p = 0
     /\ Particle.speedX p = initialVelocity test_globals
     /\ Particle.normalizedY p = Some 0.25
     /\ Particle.size p = 0.3 * 2 + 1
     /\ 1 <= Particle.size p < 3
     /\ Particle.opacity p = 0.4 * 0.5 + 0.5
     /\ 0.5 <= Particle.opacity p < 1
     /\ alpha (Particle.color p) = Particle.opacity p)
  /\ (~ 16 - 0 > SPAWN_INTERVAL / timeScale test_globals ->
      spawn test_globals [] 0 16 0.1 0.25 0.2 0.3 0.4 = ([], 0)).
Proof.
  apply (spawn_one_per_frame test_globals [] 0 16 0.1 0.25 0.2 0.3 0.4); lra.
Defined.

(** ** The particle loop *)

Lemma update_world_step w p t_push now :
  world_inv w ->
  exists p' w',
    Particle.update w p t_push now = Some (p', w')
    /\ world_inv w'
    /\ globals w' = globals w
    /\ Particle.normalizedY p' = Particle.normalizedY p
    /\ Particle.size p' = Particle.size p
    /\ Particle.opacity p' = Particle.opacity p.
Proof.
  intros [top [bottom [Ht [Hb [Wt [Wb [Bt [Bb [Hty [Hnd Hlen]]]]]]]]]].
  destruct (update_with_walls w p t_push now top bottom Ht Hb Wt Wb)
    as [topY [hU [hD [top3 [bottom3 [_ [_ [_ [R1 [R2 E]]]]]]]]]].
  eexists; eexists. split; [exact E|]. cbv zeta.
  split; [|repeat split; reflexivity].
  destruct (recordVelocity_bound_step (ready (globals w) top) (Particle.x p)
              (nextVelocity (globals w) hU hD (Particle.speedX p))
              (ready_wf _ _ Wt) (ready_bounded _ _ Bt))
    as [s1 [E1 [W1 [B1 _]]]].
  destruct (recordVelocity_bound_step (ready (globals w) bottom)
              (Particle.x p)
              (nextVelocity (globals w) hU hD (Particle.speedX p))
              (ready_wf _ _ Wb) (ready_bounded _ _ Bb))
    as [s2 [E2 [W2 [B2 _]]]].
  rewrite R1 in E1. injection E1 as <-.
  rewrite R2 in E2. injection E2 as <-.
  exists top3, bottom3. simpl.
  repeat (split; [first [reflexivity | assumption]|]).
  destruct (crossesMach1 _ _ _); [|auto].
  now apply recordTransition_inv.
Qed.

Lemma tickAll_spec :
  forall (particles : list Particle.t) (w : World) (clock : nat -> R * R)
         (i : nat),
    world_inv w ->
    exists ticked kept w',
      tickAll w particles clock i = Some (ticked, w')
      /\ updateParticles w particles clock i = Some (kept, w')
      /\ kept
         = filter (fun q => Rleb (Particle.x q) (canvas_width (globals w))
                            && Rgeb (Rabs (Particle.speedX q)) 0.001)
                  ticked
      /\ Forall2 (fun p q =>
                    Particle.normalizedY q = Particle.normalizedY p
                    /\ Particle.size q = Particle.size p
                    /\ Particle.opacity q = Particle.opacity p)
                 particles ticked
      /\ world_inv w'
      /\ globals w' = globals w.
Proof.
  induction particles as [|p ps IH]; intros w clock i Hinv.
  - exists [], [], w. simpl. repeat split; auto.
  - destruct (update_world_step w p (fst (clock i)) (snd (clock i)) Hinv)
      as [p' [w1 [E [Hinv1 [Hg1 [Hn [Hs Ho]]]]]]].
    destruct (IH w1 clock (S i) Hinv1)
      as [ticked [kept [w2 [E1 [E2 [Hk [Hf2 [Hinv2 Hg2]]]]]]]].
    cbn [tickAll updateParticles]. rewrite E, E1, E2.
    eexists; eexists; eexists.
    split; [reflexivity|]. split; [reflexivity|].
    split.
    { cbn [filter]. rewrite Hg1 in *. rewrite Hk.
      destruct (Rleb _ _ && Rgeb _ _); reflexivity. }
    split; [constructor; [repeat split; assumption | exact Hf2]|].
    split; [exact Hinv2 | congruence].
Qed.

(** X25.  In a well-formed world the particle loop of a frame never
    throws and leaves the world well-formed.  Every given particle is
    ticked once, in order, each in the world the previous ticks left; the
    particles kept are exactly the ticked ones that are on the canvas
    ([x <= canvas.width]) and have speed at least 0.001, in order.  A
    tick leaves [normalizedY], size and opacity as they were. *)
Theorem updateParticles_survivors :
  forall (particles : list Particle.t) (w : World) (clock : nat -> R * R)
         (i : nat),
    world_inv w ->
    exists ticked kept w',
      tickAll w particles clock i = Some (ticked, w')
      /\ updateParticles w particles clock i = Some (kept, w')
      /\ kept
         = filter (fun q => Rleb (Particle.x q) (canvas_width (globals w))
                            && Rgeb (Rabs (Particle.speedX q)) 0.001)
                  ticked
      /\ Forall2 (fun p q =>
                    Particle.normalizedY q = Particle.normalizedY p
                    /\ Particle.size q = Particle.size p
                    /\ Particle.opacity q = Particle.opacity p)
                 particles ticked
      /\ Forall (fun q => Particle.x q <= canvas_width (globals w)
                          /\ Rabs (Particle.speedX q) >= 0.001) kept
      /\ world_inv w'
      /\ globals w' = globals w.
Proof.
  intros particles w clock i Hinv.
  destruct (tickAll_spec particles w clock i Hinv)
    as [ticked [kept [w' [E1 [E2 [Hk [Hf2 [Hinv' Hg]]]]]]]].
  exists ticked, kept, w'.
  split; [exact E1|]. split; [exact E2|]. split; [exact Hk|].
  split; [exact Hf2|]. split; [|split; assumption].
  rewrite Hk. apply Forall_forall. intros q Hq.
  apply filter_In in Hq. destruct Hq as [_ Hq].
  apply andb_true_iff in Hq. destruct Hq as [H1 H2].
  apply Rleb_iff in H1. apply Rgeb_iff in H2. split; assumption.
Qed.

Lemma updateParticles_survivors_witness :
  exists ticked kept w',
    tickAll
      (test_world test_globals (test_wall true 100 100)
                  (test_wall false 400 500) [])
      [Particle.constructor test_globals 0.5 0.5 0.5] (fun _ => (0, 0)) 0
    = Some (ticked, w')
    /\ updateParticles
         (test_world test_globals (test_wall true 100 100)
                     (test_wall false 400 500) [])
         [Particle.constructor test_globals 0.5 0.5 0.5] (fun _ => (0, 0)) 0
       = Some (kept, w')
    /\ kept
       = filter (fun q => Rleb (Particle.x q) (canvas_width test_globals)
                          && Rgeb (Rabs (Particle.speedX q)) 0.001)
                ticked
    /\ Forall2 (fun p q =>
                  Particle.normalizedY q = Particle.normalizedY p
                  /\ Particle.size q = Particle.size p
                  /\ Particle.opacity q = Particle.opacity p)
               [Particle.constructor test_globals 0.5 0.5 0.5] ticked
    /\ Forall (fun q => Particle.x q <= canvas_width test_globals
                        /\ Rabs (Particle.speedX q) >= 0.001) kept
    /\ world_inv w'
    /\ globals w' = test_globals.
Proof.
  apply (updateParticles_survivors
           [Particle.constructor test_globals 0.5 0.5 0.5]
           (test_world test_globals (test_wall true 100 100)
                       (test_wall false 400 500) [])
           (fun _ => (0, 0)) 0%nat).
  apply test_world_inv.
Defined.

(** ** The shock pass in a well-formed world *)

Lemma drawShocks_walls g now :
  forall m top bottom strokes top' bottom',
    drawShocks g now top bottom m = Some (strokes, top', bottom') ->
    (top' = top \/ top' = ready g top)
    /\ (bottom' = bottom \/ bottom' = ready g bottom)
    /\ (length strokes <= length m)%nat.
Proof.
  induction m as [|[k ts] m IH]; intros top bottom strokes top' bottom'.
  - simpl. intros E; injection E as <- <- <-. simpl. auto.
  - simpl. destruct (drawn ts).
    + destruct (Spline.getYAtX g top k) as [[topY top1]|] eqn:HT;
        [|discriminate].
      destruct (Spline.getYAtX g bottom k) as [[bottomY bottom1]|] eqn:HB;
        [|discriminate].
      destruct (drawShocks g now top1 bottom1 m)
        as [[[strokes1 top2] bottom2]|] eqn:E1; [|discriminate].
      intros E; injection E as <- <- <-.
      apply getYAtX_ready in HT. apply getYAtX_ready in HB. subst.
      destruct (IH _ _ _ _ _ E1) as [[H1|H1] [[H2|H2] H3]]; subst;
        rewrite ?ready_ready; simpl; repeat split; auto; lia.
    + intros E. destruct (IH _ _ _ _ _ E) as [H1 [H2 H3]].
      repeat split; auto.
Qed.

Lemma filter_keys_NoDup (f : R * list ShockEvent -> bool) m :
  NoDup (map fst m) -> NoDup (map fst (filter f m)).
Proof.
  induction m as [|kv m IH]; simpl; intros H; [constructor|].
  inversion H as [|? ? Hnotin Hnd]; subst.
  destruct (f kv); simpl; [|now apply IH].
  constructor; [|now apply IH].
  intros Hin. apply Hnotin. apply in_map_iff in Hin.
  destruct Hin as [kv' [Hk Hin]]. apply filter_In in Hin.
  apply in_map_iff. exists kv'. tauto.
Qed.

(** X26.  In a well-formed world the shock pass of a frame never throws
    and leaves the world well-formed; it strokes at most one marker per
    bucket of the map and does not write the globals. *)
Theorem animateShocks_preserves_world :
  forall (w : World) (now : R),
    world_inv w ->
    exists strokes w',
      animateShocks w now = Some (strokes, w')
      /\ world_inv w'
      /\ (length strokes <= length (shockPoints w))%nat
      /\ globals w' = globals w.
Proof.
  intros w now
         [top [bottom [Ht [Hb [Wt [Wb [Bt [Bb [Hty [Hnd Hlen]]]]]]]]]].
  destruct (drawShocks_spec (globals w) now
              (pruneShocks now (shockPoints w)) top bottom
              (proj1 Wt) (proj1 Wb))
    as [strokes [top' [bottom' [E _]]]].
  unfold animateShocks. rewrite Ht, Hb, E.
  eexists; eexists. split; [reflexivity|].
  destruct (drawShocks_walls _ _ _ _ _ _ _ _ E) as [H1 [H2 H3]].
  split; [|split; [|reflexivity]].
  - exists top', bottom'. simpl.
    split; [reflexivity|]. split; [reflexivity|].
    split; [destruct H1; subst; auto using ready_wf|].
    split; [destruct H2; subst; auto using ready_wf|].
    split; [destruct H1; subst; auto using ready_bounded|].
    split; [destruct H2; subst; auto using ready_bounded|].
    split; [now apply pruneShocks_typed|].
    split; [now apply filter_keys_NoDup|].
    apply Forall_forall. intros kv Hin. apply filter_In in Hin.
    rewrite Forall_forall in Hlen. now apply Hlen.
  - etransitivity; [exact H3|]. apply filter_length_le.
Qed.

Lemma animateShocks_preserves_world_witness :
  exists strokes w',
    animateShocks
      (test_world test_globals (test_wall true 100 100)
                  (test_wall false 400 500) []) 10
    = Some (strokes, w')
    /\ world_inv w'
    /\ (length strokes <= 0)%nat
    /\ globals w' = test_globals.
Proof.
  apply (animateShocks_preserves_world
           (test_world test_globals (test_wall true 100 100)
                       (test_wall false 400 500) []) 10).
  apply test_world_inv.
Defined.

(** ** Two runs on the test duct *)

(** The mouse pressed 3 right of and 2 below the last control point of the
    test wall grabs that point. *)
Lemma handleMouseDown_grabs_last_witness :
  handleMouseDown (test_wall false 400 500)
                  {| dragging := false; dragPointIndex := (-1)%Z |} 1003 402
  = {| dragging := true; dragPointIndex := 1 |}.
Proof.
  apply (proj2 (handleMouseDown_grabs_last
                  (test_wall false 400 500)
                  {| dragging := false; dragPointIndex := (-1)%Z |}
                  1003 402)
               1%nat {| Spline.x := 1000; Spline.y := 400 |}).
  - reflexivity.
  - unfold grabbed; simpl. lra.
  - intros j q Hj Hq. simpl in Hq.
    destruct j as [|[|j]]; try lia. destruct j; discriminate.
Defined.

(** A transition whose time stamp is already 400 ms old when the clock is
    read back leaves an empty bucket behind. *)
Lemma recordTransition_bucket_witness :
  exists l,
    Map_get (roundedX test_globals 0)
            (recordTransition test_globals [] 0 1.2 0 400) = Some l
    /\ l = [].
Proof.
  destruct (recordTransition_bucket test_globals [] 0 1.2 0 400)
    as [[l [Hget [_ [_ Hempty]]]] _].
  exists l. split; [exact Hget|]. apply Hempty.
  - unfold SHOCK_LIFETIME. lra.
  - unfold bucket; simpl. constructor.
Defined.
